(** * River pollutant dispersion model: the concentration field evaluator

    A shallow embedding of [calculate_concentration_instantaneous] and of the
    dispersion-coefficient check of [pollutant.py], with the properties of the
    Gaussian-puff evaluator.

    Numbers.  The program computes with numpy float64 values.  They are
    embedded as extended reals [f64]: a finite value carries a real number,
    and the three special values of IEEE 754 arithmetic ([inf], [-inf],
    [nan]) are kept, so that a division by zero or a square root of a
    negative number yields what numpy yields.  Finite arithmetic is exact:
    rounding to 53 bits, overflow and underflow are outside this model, and
    zero is unsigned. *)

From Stdlib Require Import Reals Lra Lia List Bool FunctionalExtensionality.
Import ListNotations.

Local Open Scope R_scope.

(** ** Values *)

Inductive f64 : Type :=
| Fin (r : R)
| PInf
| NInf
| NaN.

Declare Scope f64_scope.
Delimit Scope f64_scope with f64.
Bind Scope f64_scope with f64.

Coercion Fin : R >-> f64.

Definition is_finite (a : f64) : Prop :=
  match a with Fin _ => True | _ => False end.

(** Sign of a real used as a factor or a divisor of an infinity. *)
Inductive sign : Type := Neg | Zero | Pos.

Definition Rsign (r : R) : sign :=
  if Rlt_dec 0 r then Pos else if Rlt_dec r 0 then Neg else Zero.

Definition inf_of (s : sign) : f64 :=
  match s with Pos => PInf | Neg => NInf | Zero => NaN end.

Definition sign_opp (s : sign) : sign :=
  match s with Pos => Neg | Neg => Pos | Zero => Zero end.

(** ** Arithmetic of numpy float64 scalars *)

Definition fneg (a : f64) : f64 :=
  match a with
  | Fin r => Fin (- r)
  | PInf => NInf
  | NInf => PInf
  | NaN => NaN
  end.

Definition fadd (a b : f64) : f64 :=
  match a, b with
  | NaN, _ | _, NaN => NaN
  | Fin r, Fin s => Fin (r + s)
  | PInf, NInf | NInf, PInf => NaN
  | PInf, _ | _, PInf => PInf
  | NInf, _ | _, NInf => NInf
  end.

Definition fsub (a b : f64) : f64 := fadd a (fneg b).

Definition fmul (a b : f64) : f64 :=
  match a, b with
  | NaN, _ | _, NaN => NaN
  | Fin r, Fin s => Fin (r * s)
  | Fin r, PInf | PInf, Fin r => inf_of (Rsign r)
  | Fin r, NInf | NInf, Fin r => inf_of (sign_opp (Rsign r))
  | PInf, PInf | NInf, NInf => PInf
  | PInf, NInf | NInf, PInf => NaN
  end.

(** Division never raises on float64 operands: [x / 0] is an infinity of the
    sign of [x], and [0 / 0] is [nan]. *)
Definition fdiv (a b : f64) : f64 :=
  match a, b with
  | NaN, _ | _, NaN => NaN
  | Fin r, Fin s =>
      if Req_dec_T s 0 then inf_of (Rsign r) else Fin (r / s)
  | Fin _, PInf | Fin _, NInf => Fin 0
  | PInf, Fin s => if Rlt_dec s 0 then NInf else PInf
  | NInf, Fin s => if Rlt_dec s 0 then PInf else NInf
  | _, _ => NaN
  end.

(** [a ** n] for a literal integer exponent (the source squares). *)
Definition fpow_nat (a : f64) (n : nat) : f64 :=
  match a with
  | Fin r => Fin (r ^ n)
  | PInf => match n with O => Fin 1 | _ => PInf end
  | NInf => match n with
            | O => Fin 1
            | _ => if Nat.even n then PInf else NInf
            end
  | NaN => match n with O => Fin 1 | _ => NaN end
  end.

(** [a ** y] for a literal exponent [y] that is positive and not an integer
    (the source raises to [1.5]): [nan] on a negative base. *)
Definition fpow (a : f64) (y : R) : f64 :=
  match a with
  | Fin r =>
      if Rlt_dec 0 r then Fin (Rpower r y)
      else if Rlt_dec r 0 then NaN else Fin 0
  | PInf => PInf
  | NInf => PInf
  | NaN => NaN
  end.

Definition np_sqrt (a : f64) : f64 :=
  match a with
  | Fin r => if Rlt_dec r 0 then NaN else Fin (sqrt r)
  | PInf => PInf
  | NInf => NaN
  | NaN => NaN
  end.

Definition np_exp (a : f64) : f64 :=
  match a with
  | Fin r => Fin (exp r)
  | PInf => PInf
  | NInf => Fin 0
  | NaN => NaN
  end.

(** [np.maximum] propagates [nan]. *)
Definition np_maximum (a b : f64) : f64 :=
  match a, b with
  | NaN, _ | _, NaN => NaN
  | Fin r, Fin s => Fin (Rmax r s)
  | PInf, _ | _, PInf => PInf
  | NInf, c | c, NInf => c
  end.

(** Comparisons are false as soon as an operand is [nan]. *)
Definition fgtb (a b : f64) : bool :=
  match a, b with
  | NaN, _ | _, NaN => false
  | Fin r, Fin s => if Rlt_dec s r then true else false
  | PInf, PInf => false
  | PInf, _ => true
  | _, PInf => false
  | NInf, _ => false
  | _, NInf => true
  end.

Definition fleb (a b : f64) : bool :=
  match a, b with
  | NaN, _ | _, NaN => false
  | Fin r, Fin s => if Rle_dec r s then true else false
  | NInf, _ => true
  | _, PInf => true
  | _, _ => false
  end.

Definition feqb (a b : f64) : bool :=
  match a, b with
  | Fin r, Fin s => if Req_dec_T r s then true else false
  | PInf, PInf | NInf, NInf => true
  | _, _ => false
  end.

Definition np_where (c : bool) (a b : f64) : f64 := if c then a else b.

Definition np_pi : f64 := Fin PI.

Notation "a + b" := (fadd a b) : f64_scope.
Notation "a - b" := (fsub a b) : f64_scope.
Notation "a * b" := (fmul a b) : f64_scope.
Notation "a / b" := (fdiv a b) : f64_scope.
Notation "- a" := (fneg a) : f64_scope.
Notation "a ** n" := (fpow_nat a n) (at level 30, right associativity) : f64_scope.
Notation "a **. y" := (fpow a y) (at level 30, right associativity) : f64_scope.
Notation "a >? b" := (fgtb a b) (at level 70, no associativity) : f64_scope.

(** ** The physics engine *)

(** The value the source clamps times to. *)
Definition t_floor : R := 1e-6.

(** [calculate_concentration_instantaneous], on one element of the broadcast
    arrays.  Every sub-expression is bound as the source binds it. *)
Definition calculate_concentration_instantaneous
    (t x y z M u v w Dx Dy Dz x0 y0 z0 : f64) : f64 :=
  (let t_safe := np_maximum t (Fin t_floor) in
   let term1 :=
     M / ((Fin 4 * np_pi * t_safe) **. 1.5 * np_sqrt (Dx * Dy * Dz)) in
   let exp_x := - ((x - x0 - u * t_safe) ** 2) / (Fin 4 * Dx * t_safe) in
   let exp_y := - ((y - y0 - v * t_safe) ** 2) / (Fin 4 * Dy * t_safe) in
   let exp_z := - ((z - z0 - w * t_safe) ** 2) / (Fin 4 * Dz * t_safe) in
   let C := term1 * np_exp (exp_x + exp_y + exp_z) in
   np_where (t >? Fin 0) C (Fin 0))%f64.

(** A query point [(t, x, y, z)]: one position of the broadcast arrays. *)
Record QueryPoint : Type := mkQuery { qt : f64; qx : f64; qy : f64; qz : f64 }.

(** The call on arrays: numpy applies the body to every position. *)
Definition calculate_concentration_field
    (pts : list QueryPoint) (M u v w Dx Dy Dz x0 y0 z0 : f64) : list f64 :=
  map (fun p =>
         calculate_concentration_instantaneous
           (qt p) (qx p) (qy p) (qz p) M u v w Dx Dy Dz x0 y0 z0)
      pts.

(** ** The call and the configuration boundary *)

(** What a Python call can do: return a value or raise. *)
Inductive error : Type := InvalidParameterError.

Inductive outcome : Type :=
| Returned (C : f64)
| Raised (e : error).

(** The body of the evaluator holds no [raise], and float64 operations report
    a division by zero or an invalid operand through their result: the call
    returns what the body computes. *)
Definition call_evaluator
    (t x y z M u v w Dx Dy Dz x0 y0 z0 : f64) : outcome :=
  Returned
    (calculate_concentration_instantaneous t x y z M u v w Dx Dy Dz x0 y0 z0).

(** The module-level validation that precedes every call:
    [if Dx == 0 or Dy == 0 or Dz == 0: ... st.stop()]. *)
Inductive script_flow : Type := Stopped | Proceeds.

Definition dispersion_check (Dx Dy Dz : f64) : script_flow :=
  if feqb Dx (Fin 0) || feqb Dy (Fin 0) || feqb Dz (Fin 0)
  then Stopped else Proceeds.

(** ** The closed form of the specification *)

(** The Gaussian-puff expression of the specification over the reals, at the
    time [ts] used in the arithmetic. *)
Definition puff_prefactor (ts M Dx Dy Dz : R) : R :=
  M / (Rpower (4 * PI * ts) 1.5 * sqrt (Dx * Dy * Dz)).

Definition puff_exponent (ts x y z u v w Dx Dy Dz x0 y0 z0 : R) : R :=
  - (x - x0 - u * ts) ^ 2 / (4 * Dx * ts)
  + - (y - y0 - v * ts) ^ 2 / (4 * Dy * ts)
  + - (z - z0 - w * ts) ^ 2 / (4 * Dz * ts).

Definition gaussian_puff (ts x y z M u v w Dx Dy Dz x0 y0 z0 : R) : R :=
  puff_prefactor ts M Dx Dy Dz
  * exp (puff_exponent ts x y z u v w Dx Dy Dz x0 y0 z0).

(** ** Predicates on outputs *)

Definition finite_nonneg (a : f64) : Prop :=
  match a with Fin r => 0 <= r | _ => False end.

Definition finite_pos (a : f64) : Prop :=
  match a with Fin r => 0 < r | _ => False end.

(** Neither finite nor [inf]: what a vanishing divisor leaves of a summand
    of the exponent. *)
Definition ninf_or_nan (a : f64) : Prop := a = NInf \/ a = NaN.

(** The value of the specification before the mask, [C_raw], in the
    arithmetic of the program. *)
Definition C_raw (t_safe x y z M u v w Dx Dy Dz x0 y0 z0 : f64) : f64 :=
  (M / ((Fin 4 * np_pi * t_safe) **. 1.5 * np_sqrt (Dx * Dy * Dz))
   * np_exp (- ((x - x0 - u * t_safe) ** 2) / (Fin 4 * Dx * t_safe)
             + - ((y - y0 - v * t_safe) ** 2) / (Fin 4 * Dy * t_safe)
             + - ((z - z0 - w * t_safe) ** 2) / (Fin 4 * Dz * t_safe)))%f64.

(** The real number carried by a finite value. *)
Definition value_of (a : f64) : R :=
  match a with Fin r => r | _ => 0 end.

(** ** Integration over space *)

(** [I] is the Riemann integral of [f] from [a] to [b]. *)
Definition is_RInt (f : R -> R) (a b I : R) : Prop :=
  exists pr : Riemann_integrable f a b, RiemannInt pr = I.

(** [I] is the integral of [f] over the whole line: the integrals over
    [[a, b]] tend to [I] when [a] tends to minus infinity and [b] to plus
    infinity, independently. *)
Definition is_RInt_line (f : R -> R) (I : R) : Prop :=
  forall eps, 0 < eps ->
    exists A, forall a b, a <= - A -> A <= b ->
      exists J, is_RInt f a b J /\ Rabs (J - I) < eps.

(** [I] is the integral of [F] over three-dimensional space, one coordinate
    after the other: over [z] at each [(x, y)], then over [y] at each [x],
    then over [x]. *)
Definition is_RInt_space (F : R -> R -> R -> R) (I : R) : Prop :=
  exists (Gxy : R -> R -> R) (Gx : R -> R),
    (forall x y, is_RInt_line (fun z => F x y z) (Gxy x y))
    /\ (forall x, is_RInt_line (fun y => Gxy x y) (Gx x))
    /\ is_RInt_line Gx I.

(** The functions of the computation of the Gaussian integral: the unit
    Gaussian, and the integrand [exp (- t^2 (1 + x^2)) / (1 + x^2)] with its
    first two derivatives in [t]. *)
Definition gauss (x : R) : R := exp (- (x * x)).

Definition wedge (t x : R) : R := exp (- (t * t) * (1 + x * x)) / (1 + x * x).

Definition wedge_t (t x : R) : R := - 2 * t * exp (- (t * t) * (1 + x * x)).

Definition wedge_tt (t x : R) : R :=
  (- 2 + 4 * (t * t) * (1 + x * x)) * exp (- (t * t) * (1 + x * x)).

Definition half_sqrt_pi : R := sqrt PI / 2.

(** ** Grids and reductions of numpy *)

(** [np.linspace(start, stop, num)]: [num] samples, the end point included.
    numpy computes [i * step + start] with [step = (stop - start) / (num - 1)]
    and then stores [stop] itself in the last position; a single sample is
    [start]. *)
Definition np_linspace (start stop : R) (num : nat) : list R :=
  match num with
  | O => []
  | S O => [start]
  | S (S _ as div) =>
      let step := (stop - start) / INR div in
      map (fun i => INR i * step + start) (seq 0 div) ++ [stop]
  end.

(** [np.meshgrid(a, b, c, indexing='ij')] read after [flatten()]: the
    positions of the three arrays in row-major order (the index of [a]
    varies slowest), each with its three coordinates. *)
Definition np_meshgrid_ij {A B C : Type}
    (a : list A) (b : list B) (c : list C) : list (A * B * C) :=
  flat_map (fun x => flat_map (fun y => map (fun z => (x, y, z)) c) b) a.

(** [np.max] of the flattened array: the reduction by [np.maximum], which
    propagates [nan]; it raises [ValueError] on an empty array ([None]). *)
Definition np_max (l : list f64) : option f64 :=
  match l with
  | [] => None
  | a :: r => Some (fold_left np_maximum r a)
  end.

(** The evaluator on finite operands, as a real function: the closed form at
    the clamped time where the time is positive, zero elsewhere. *)
Definition concentration (t x y z M u v w Dx Dy Dz x0 y0 z0 : R) : R :=
  if Rlt_dec 0 t
  then gaussian_puff (Rmax t t_floor) x y z M u v w Dx Dy Dz x0 y0 z0
  else 0.

(** A result that is a number or [nan], never an infinity. *)
Definition finite_or_nan (a : f64) : Prop :=
  match a with Fin _ | NaN => True | _ => False end.

(** ** The page *)

Module Page.

(** The values read from the sidebar. *)
Record Sidebar : Type := mkSidebar {
  L : R; W : R; H : R;
  u : R; v : R; w_vel : R;
  Dx : R; Dy : R; Dz : R;
  M : R;
  x0 : R; y0 : R; z0 : R
}.

(** What the widgets guarantee of the values they return: the [min_value]
    of each [number_input] and the range of each [slider]. *)
Definition widget_ranges (s : Sidebar) : Prop :=
  10 <= L s /\ 1 <= W s /\ 0.5 <= H s
  /\ 0 <= Dx s /\ 0 <= Dy s /\ 0 <= Dz s
  /\ 0 <= x0 s <= L s /\ 0 <= y0 s <= W s /\ 0 <= z0 s <= H s.

(** A slider: its range and the value it shows first. *)
Record Slider : Type := mkSlider { lo : R; hi : R; initial : R }.

Definition well_formed (sl : Slider) : Prop := lo sl <= initial sl <= hi sl.

(** The sliders of the release point, [st.sidebar.slider(label, 0.0, L, 5.0)]
    and the two that start at mid-breadth and mid-depth, and the slider of
    the slice of each space-time plot, which starts at the release point
    (breadth, depth) or at mid-length. *)
Definition release_sliders (s : Sidebar) : list Slider :=
  [ mkSlider 0 (L s) 5; mkSlider 0 (W s) (W s / 2);
    mkSlider 0 (H s) (H s / 2) ].

Definition slice_sliders (s : Sidebar) : list Slider :=
  [ mkSlider 0 (W s) (y0 s); mkSlider 0 (H s) (z0 s);
    mkSlider 0 (L s) (L s / 2) ].

(** The resolution slider and the number of samples per axis. *)
Inductive Resolution : Type := Low | Medium | High.

Definition n_pts (res : Resolution) : nat :=
  match res with
  | Low => 20
  | Medium => 35
  | High => 50
  end.

(** The plot configuration, with the values of the sliders its branch reads:
    the three space-time plots (maximal time and position of the slice) and
    the spatial snapshot (its time). *)
Inductive PlotRequest : Type :=
| TimeLengthDepth (t_max slice_loc : R)
| TimeLengthBreadth (t_max slice_loc : R)
| TimeDepthBreadth (t_max slice_loc : R)
| SpatialSnapshot (sim_time : R).

Definition request_ranges (s : Sidebar) (req : PlotRequest) : Prop :=
  match req with
  | TimeLengthDepth t_max slice_loc =>
      60 <= t_max <= 7200 /\ 0 <= slice_loc <= W s
  | TimeLengthBreadth t_max slice_loc =>
      60 <= t_max <= 7200 /\ 0 <= slice_loc <= H s
  | TimeDepthBreadth t_max slice_loc =>
      60 <= t_max <= 7200 /\ 0 <= slice_loc <= L s
  | SpatialSnapshot sim_time => 0 <= sim_time <= 3600
  end.

(** The broadcast arrays handed to the evaluator, position by position. *)
Definition query_points (s : Sidebar) (n : nat) (req : PlotRequest)
  : list QueryPoint :=
  match req with
  | SpatialSnapshot sim_time =>
      let x_vals := np_linspace 0 (L s) n in
      let y_vals := np_linspace 0 (W s) n in
      let z_vals := np_linspace 0 (H s) n in
      map (fun '(x, y, z) => mkQuery (Fin sim_time) (Fin x) (Fin y) (Fin z))
          (np_meshgrid_ij x_vals y_vals z_vals)
  | TimeLengthDepth t_max slice_loc =>
      let t_vals := np_linspace 1 t_max n in
      let x_vals := np_linspace 0 (L s) n in
      let z_vals := np_linspace 0 (H s) n in
      map (fun '(t, x, z) => mkQuery (Fin t) (Fin x) (Fin slice_loc) (Fin z))
          (np_meshgrid_ij t_vals x_vals z_vals)
  | TimeLengthBreadth t_max slice_loc =>
      let t_vals := np_linspace 1 t_max n in
      let x_vals := np_linspace 0 (L s) n in
      let y_vals := np_linspace 0 (W s) n in
      map (fun '(t, x, y) => mkQuery (Fin t) (Fin x) (Fin y) (Fin slice_loc))
          (np_meshgrid_ij t_vals x_vals y_vals)
  | TimeDepthBreadth t_max slice_loc =>
      let t_vals := np_linspace 1 t_max n in
      let z_vals := np_linspace 0 (H s) n in
      let y_vals := np_linspace 0 (W s) n in
      map (fun '(t, z, y) => mkQuery (Fin t) (Fin slice_loc) (Fin y) (Fin z))
          (np_meshgrid_ij t_vals z_vals y_vals)
  end.

(** The requests whose first axis is the time, and the least and the
    largest time a request evaluates. *)
Definition is_space_time (req : PlotRequest) : Prop :=
  match req with SpatialSnapshot _ => False | _ => True end.

Definition first_time (req : PlotRequest) : R :=
  match req with
  | SpatialSnapshot sim_time => sim_time
  | _ => 1
  end.

Definition last_time (req : PlotRequest) : R :=
  match req with
  | TimeLengthDepth t_max _
  | TimeLengthBreadth t_max _
  | TimeDepthBreadth t_max _ => t_max
  | SpatialSnapshot sim_time => sim_time
  end.

(** The coordinate that a request holds fixed over its whole grid. *)
Definition pinned (req : PlotRequest) (t x y z : R) : Prop :=
  match req with
  | TimeLengthDepth _ slice_loc => y = slice_loc
  | TimeLengthBreadth _ slice_loc => z = slice_loc
  | TimeDepthBreadth _ slice_loc => x = slice_loc
  | SpatialSnapshot sim_time => t = sim_time
  end.

(** The three coordinates given to the plot at a position. *)
Definition plot_coords (req : PlotRequest) (p : QueryPoint)
  : f64 * f64 * f64 :=
  match req with
  | TimeLengthDepth _ _ => (qt p, qx p, qz p)
  | TimeLengthBreadth _ _ => (qt p, qx p, qy p)
  | TimeDepthBreadth _ _ => (qt p, qz p, qy p)
  | SpatialSnapshot _ => (qx p, qy p, qz p)
  end.

(** The arguments of [go.Volume] that depend on the computation. *)
Record Volume : Type := mkVolume {
  coords : list (f64 * f64 * f64);
  value : list f64;
  isomin : f64;
  isomax : f64
}.

(** One run of the script: halted by the validation of the coefficients,
    failed in [np.max], or plotted with the maximum it prints. *)
Inductive rendering : Type :=
| Halted
| MaxOfEmpty
| Plotted (fig : Volume) (c_max : f64).

(** A position of the arrays whose four coordinates are numbers, and the
    real value of the evaluator there. *)
Definition finite_point (p : QueryPoint) : Prop :=
  is_finite (qt p) /\ is_finite (qx p) /\ is_finite (qy p)
  /\ is_finite (qz p).

Definition concentration_at (s : Sidebar) (p : QueryPoint) : R :=
  concentration
    (value_of (qt p)) (value_of (qx p)) (value_of (qy p)) (value_of (qz p))
    (M s) (u s) (v s) (w_vel s) (Dx s) (Dy s) (Dz s) (x0 s) (y0 s) (z0 s).

Definition evaluate (s : Sidebar) (pts : list QueryPoint) : list f64 :=
  calculate_concentration_field pts
    (Fin (M s)) (Fin (u s)) (Fin (v s)) (Fin (w_vel s))
    (Fin (Dx s)) (Fin (Dy s)) (Fin (Dz s))
    (Fin (x0 s)) (Fin (y0 s)) (Fin (z0 s)).

Definition run (s : Sidebar) (res : Resolution) (req : PlotRequest)
  : rendering :=
  match dispersion_check (Fin (Dx s)) (Fin (Dy s)) (Fin (Dz s)) with
  | Stopped => Halted
  | Proceeds =>
      let pts := query_points s (n_pts res) req in
      let C := evaluate s pts in
      match np_max C with
      | None => MaxOfEmpty
      | Some c_max =>
          Plotted
            (mkVolume (map (plot_coords req) pts) C
                      (fmul c_max (Fin 0.05)) c_max)
            c_max
      end
  end.

(** The values the widgets show before any interaction. *)
Definition defaults : Sidebar :=
  mkSidebar 100 20 5 0.5 0 0 1 0.1 0.01 10 5 (20 / 2) (5 / 2).

End Page.

(** ** Elementary facts *)

Lemma t_floor_pos : 0 < t_floor.
Proof. unfold t_floor. lra. Qed.

Lemma Rmax_floor_pos (t : R) : 0 < Rmax t t_floor.
Proof.
  apply Rlt_le_trans with t_floor; [apply t_floor_pos | apply Rmax_r].
Qed.

Lemma Rmax_floor_below (t : R) : t <= t_floor -> Rmax t t_floor = t_floor.
Proof. intro H. apply Rmax_right. exact H. Qed.

Lemma four_pi_pos (ts : R) : 0 < ts -> 0 < 4 * PI * ts.
Proof.
  intro H. pose proof PI_RGT_0.
  apply Rmult_lt_0_compat; [lra | exact H].
Qed.

Lemma Rpower_pos (a y : R) : 0 < Rpower a y.
Proof. unfold Rpower. apply exp_pos. Qed.

Lemma D_product_pos (Dx Dy Dz : R) :
  0 < Dx -> 0 < Dy -> 0 < Dz -> 0 < Dx * Dy * Dz.
Proof.
  intros Hx Hy Hz. repeat apply Rmult_lt_0_compat; assumption.
Qed.

Lemma puff_denominator_pos (ts Dx Dy Dz : R) :
  0 < Dx -> 0 < Dy -> 0 < Dz ->
  0 < Rpower (4 * PI * ts) 1.5 * sqrt (Dx * Dy * Dz).
Proof.
  intros Hx Hy Hz. apply Rmult_lt_0_compat.
  - apply Rpower_pos.
  - apply sqrt_lt_R0. apply D_product_pos; assumption.
Qed.

Lemma axis_denominator_pos (D ts : R) : 0 < D -> 0 < ts -> 0 < 4 * D * ts.
Proof.
  intros HD Ht. apply Rmult_lt_0_compat; [lra | exact Ht].
Qed.

(** Resolution of the sign tests met while the body is evaluated. *)
Lemma Rlt_dec_true (a b : R) (T : Type) (p q : T) :
  a < b -> (if Rlt_dec a b then p else q) = p.
Proof. intro H. destruct (Rlt_dec a b); [reflexivity | contradiction]. Qed.

Lemma Rlt_dec_false (a b : R) (T : Type) (p q : T) :
  ~ a < b -> (if Rlt_dec a b then p else q) = q.
Proof. intro H. destruct (Rlt_dec a b); [contradiction | reflexivity]. Qed.

Lemma Req_dec_T_false (a b : R) (T : Type) (p q : T) :
  a <> b -> (if Req_dec_T a b then p else q) = q.
Proof. intro H. destruct (Req_dec_T a b); [contradiction | reflexivity]. Qed.

Lemma Req_dec_T_true (a b : R) (T : Type) (p q : T) :
  a = b -> (if Req_dec_T a b then p else q) = p.
Proof. intro H. destruct (Req_dec_T a b); [reflexivity | contradiction]. Qed.

(** ** The mask *)

(** The last line of the body decides alone when the original time is not
    positive: the value computed from the clamped time is dropped. *)
Lemma mask_nonpositive_time (t x y z M u v w Dx Dy Dz x0 y0 z0 : f64) :
  fgtb t (Fin 0) = false ->
  calculate_concentration_instantaneous t x y z M u v w Dx Dy Dz x0 y0 z0
  = Fin 0.
Proof.
  intro H. unfold calculate_concentration_instantaneous.
  cbv zeta. rewrite H. reflexivity.
Qed.

Lemma fgtb_real (t : R) : fgtb (Fin t) (Fin 0) = true <-> 0 < t.
Proof.
  simpl. destruct (Rlt_dec 0 t); split; intro H;
    try reflexivity; try assumption; try discriminate; contradiction.
Qed.

Lemma fgtb_real_false (t : R) : fgtb (Fin t) (Fin 0) = false <-> t <= 0.
Proof.
  simpl. destruct (Rlt_dec 0 t); split; intro H;
    try reflexivity; try discriminate; lra.
Qed.

(** ** The body on finite operands *)

(** With finite operands and positive dispersion coefficients no special
    value arises: the body computes the closed form at the clamped time and
    masks it by the sign of the original time. *)
Lemma body_on_reals (t x y z M u v w Dx Dy Dz x0 y0 z0 : R) :
  0 < Dx -> 0 < Dy -> 0 < Dz ->
  calculate_concentration_instantaneous
    (Fin t) (Fin x) (Fin y) (Fin z) (Fin M) (Fin u) (Fin v) (Fin w)
    (Fin Dx) (Fin Dy) (Fin Dz) (Fin x0) (Fin y0) (Fin z0)
  = if Rlt_dec 0 t
    then Fin (gaussian_puff (Rmax t t_floor) x y z M u v w Dx Dy Dz x0 y0 z0)
    else Fin 0.
Proof.
  intros Hx Hy Hz.
  pose proof (Rmax_floor_pos t) as Hts.
  pose proof (four_pi_pos _ Hts) as H4.
  pose proof (D_product_pos _ _ _ Hx Hy Hz) as HD.
  pose proof (puff_denominator_pos (Rmax t t_floor) _ _ _ Hx Hy Hz) as Hden.
  pose proof (axis_denominator_pos _ _ Hx Hts) as Hax.
  pose proof (axis_denominator_pos _ _ Hy Hts) as Hay.
  pose proof (axis_denominator_pos _ _ Hz Hts) as Haz.
  unfold calculate_concentration_instantaneous, np_pi. cbn.
  rewrite (Rlt_dec_true 0 (4 * PI * Rmax t t_floor)) by exact H4.
  rewrite (Rlt_dec_false (Dx * Dy * Dz) 0) by lra.
  cbn.
  rewrite Req_dec_T_false by lra.
  rewrite !Req_dec_T_false by lra.
  cbn.
  destruct (Rlt_dec 0 t); cbn; [| reflexivity].
  f_equal.
Qed.

Lemma puff_prefactor_pos (ts M Dx Dy Dz : R) :
  0 < Dx -> 0 < Dy -> 0 < Dz -> 0 < M -> 0 < puff_prefactor ts M Dx Dy Dz.
Proof.
  intros Hx Hy Hz HM. unfold puff_prefactor.
  apply Rdiv_lt_0_compat; [exact HM | apply puff_denominator_pos; assumption].
Qed.

Lemma puff_prefactor_nonneg (ts M Dx Dy Dz : R) :
  0 < Dx -> 0 < Dy -> 0 < Dz -> 0 <= M -> 0 <= puff_prefactor ts M Dx Dy Dz.
Proof.
  intros Hx Hy Hz HM. unfold puff_prefactor.
  pose proof (puff_denominator_pos ts _ _ _ Hx Hy Hz) as Hden.
  apply Rmult_le_pos; [exact HM | left; apply Rinv_0_lt_compat; exact Hden].
Qed.

Lemma axis_term_nonpos (d D ts : R) :
  0 < D -> 0 < ts -> - d ^ 2 / (4 * D * ts) <= 0.
Proof.
  intros HD Hts.
  pose proof (axis_denominator_pos _ _ HD Hts) as Hden.
  pose proof (pow2_ge_0 d) as Hsq.
  unfold Rdiv.
  assert (0 <= d ^ 2 * / (4 * D * ts)) as H.
  { apply Rmult_le_pos; [exact Hsq | left; apply Rinv_0_lt_compat; exact Hden]. }
  lra.
Qed.

Lemma puff_exponent_nonpos (ts x y z u v w Dx Dy Dz x0 y0 z0 : R) :
  0 < Dx -> 0 < Dy -> 0 < Dz -> 0 < ts ->
  puff_exponent ts x y z u v w Dx Dy Dz x0 y0 z0 <= 0.
Proof.
  intros Hx Hy Hz Hts. unfold puff_exponent.
  pose proof (axis_term_nonpos (x - x0 - u * ts) _ _ Hx Hts).
  pose proof (axis_term_nonpos (y - y0 - v * ts) _ _ Hy Hts).
  pose proof (axis_term_nonpos (z - z0 - w * ts) _ _ Hz Hts).
  lra.
Qed.

Lemma puff_exponent_at_release (ts Dx Dy Dz x0 y0 z0 : R) :
  puff_exponent ts x0 y0 z0 0 0 0 Dx Dy Dz x0 y0 z0 = 0.
Proof.
  unfold puff_exponent.
  replace (x0 - x0 - 0 * ts) with 0 by ring.
  replace (y0 - y0 - 0 * ts) with 0 by ring.
  replace (z0 - z0 - 0 * ts) with 0 by ring.
  unfold Rdiv. ring.
Qed.

Lemma gaussian_puff_pos (ts x y z M u v w Dx Dy Dz x0 y0 z0 : R) :
  0 < Dx -> 0 < Dy -> 0 < Dz -> 0 < M ->
  0 < gaussian_puff ts x y z M u v w Dx Dy Dz x0 y0 z0.
Proof.
  intros Hx Hy Hz HM. unfold gaussian_puff.
  apply Rmult_lt_0_compat;
    [apply puff_prefactor_pos; assumption | apply exp_pos].
Qed.

Lemma gaussian_puff_nonneg (ts x y z M u v w Dx Dy Dz x0 y0 z0 : R) :
  0 < Dx -> 0 < Dy -> 0 < Dz -> 0 <= M ->
  0 <= gaussian_puff ts x y z M u v w Dx Dy Dz x0 y0 z0.
Proof.
  intros Hx Hy Hz HM. unfold gaussian_puff.
  apply Rmult_le_pos;
    [apply puff_prefactor_nonneg; assumption | left; apply exp_pos].
Qed.

Lemma gaussian_puff_scale (c ts x y z M u v w Dx Dy Dz x0 y0 z0 : R) :
  gaussian_puff ts x y z (c * M) u v w Dx Dy Dz x0 y0 z0
  = c * gaussian_puff ts x y z M u v w Dx Dy Dz x0 y0 z0.
Proof.
  unfold gaussian_puff, puff_prefactor, Rdiv. ring.
Qed.

Lemma gaussian_puff_peak (ts x y z M Dx Dy Dz x0 y0 z0 : R) :
  0 < Dx -> 0 < Dy -> 0 < Dz -> 0 < M -> 0 < ts ->
  gaussian_puff ts x y z M 0 0 0 Dx Dy Dz x0 y0 z0
  <= gaussian_puff ts x0 y0 z0 M 0 0 0 Dx Dy Dz x0 y0 z0.
Proof.
  intros Hx Hy Hz HM Hts. unfold gaussian_puff.
  apply Rmult_le_compat_l.
  - left. apply puff_prefactor_pos; assumption.
  - rewrite puff_exponent_at_release.
    pose proof (puff_exponent_nonpos ts x y z 0 0 0 _ _ _ x0 y0 z0
                  Hx Hy Hz Hts) as Hle.
    destruct Hle as [Hlt | Heq].
    + left. apply exp_increasing. exact Hlt.
    + rewrite Heq. right. reflexivity.
Qed.

(** ** Properties of the evaluator *)

(** C2.  Whatever the operands (positions, mass, velocities, dispersion
    coefficients, special values included), a query whose original time is
    at most zero evaluates to exactly zero; this covers [t = 0] at the
    release point itself. *)
Theorem zero_before_release
    (t : R) (x y z M u v w Dx Dy Dz x0 y0 z0 : f64) :
  t <= 0 ->
  calculate_concentration_instantaneous
    (Fin t) x y z M u v w Dx Dy Dz x0 y0 z0 = Fin 0.
Proof.
  intro Ht. apply mask_nonpositive_time.
  apply fgtb_real_false. exact Ht.
Qed.

Lemma zero_before_release_witness :
  calculate_concentration_instantaneous
    (Fin 0) (Fin 5) (Fin 10) (Fin 2.5) (Fin 10) (Fin 0.5) (Fin 0) (Fin 0)
    (Fin 1) (Fin 0.1) (Fin 0.01) (Fin 5) (Fin 10) (Fin 2.5) = Fin 0.
Proof.
  apply (zero_before_release 0). lra.
Defined.



Lemma compute_then_mask (t x y z M u v w Dx Dy Dz x0 y0 z0 : f64) :
  calculate_concentration_instantaneous t x y z M u v w Dx Dy Dz x0 y0 z0
  = np_where (fgtb t (Fin 0))
      (C_raw (np_maximum t (Fin t_floor)) x y z M u v w Dx Dy Dz x0 y0 z0)
      (Fin 0).
Proof. reflexivity. Qed.

(** The call on arrays computes, at each position, the value of the body at
    the query point of that position. *)
Lemma field_elementwise
    (pts : list QueryPoint) (M u v w Dx Dy Dz x0 y0 z0 : f64)
    (i : nat) (p : QueryPoint) :
  nth_error pts i = Some p ->
  nth_error (calculate_concentration_field pts M u v w Dx Dy Dz x0 y0 z0) i
  = Some (calculate_concentration_instantaneous
            (qt p) (qx p) (qy p) (qz p) M u v w Dx Dy Dz x0 y0 z0).
Proof.
  intro H. unfold calculate_concentration_field.
  apply map_nth_error with (f := fun q =>
    calculate_concentration_instantaneous
      (qt q) (qx q) (qy q) (qz q) M u v w Dx Dy Dz x0 y0 z0).
  exact H.
Qed.

Lemma field_length
    (pts : list QueryPoint) (M u v w Dx Dy Dz x0 y0 z0 : f64) :
  length (calculate_concentration_field pts M u v w Dx Dy Dz x0 y0 z0)
  = length pts.
Proof. unfold calculate_concentration_field. apply length_map. Qed.

Lemma C_raw_on_reals (ts x y z M u v w Dx Dy Dz x0 y0 z0 : R) :
  0 < ts -> 0 < Dx -> 0 < Dy -> 0 < Dz ->
  C_raw (Fin ts) (Fin x) (Fin y) (Fin z) (Fin M) (Fin u) (Fin v) (Fin w)
        (Fin Dx) (Fin Dy) (Fin Dz) (Fin x0) (Fin y0) (Fin z0)
  = Fin (gaussian_puff ts x y z M u v w Dx Dy Dz x0 y0 z0).
Proof.
  intros Hts Hx Hy Hz.
  pose proof (four_pi_pos _ Hts) as H4.
  pose proof (D_product_pos _ _ _ Hx Hy Hz) as HD.
  pose proof (puff_denominator_pos ts _ _ _ Hx Hy Hz) as Hden.
  pose proof (axis_denominator_pos _ _ Hx Hts) as Hax.
  pose proof (axis_denominator_pos _ _ Hy Hts) as Hay.
  pose proof (axis_denominator_pos _ _ Hz Hts) as Haz.
  unfold C_raw, np_pi. cbn.
  rewrite (Rlt_dec_true 0 (4 * PI * ts)) by exact H4.
  rewrite (Rlt_dec_false (Dx * Dy * Dz) 0) by lra.
  cbn.
  rewrite !Req_dec_T_false by lra.
  cbn. reflexivity.
Qed.







(** C9.  For a positive time at most the floor the result does not depend
    on the time: it is the result at [t = 1e-6], namely the unmasked value
    [C_raw] at the floor, whatever the other operands. *)
Theorem constant_below_floor
    (t : R) (x y z M u v w Dx Dy Dz x0 y0 z0 : f64) :
  0 < t <= 1e-6 ->
  calculate_concentration_instantaneous
    (Fin t) x y z M u v w Dx Dy Dz x0 y0 z0
  = calculate_concentration_instantaneous
      (Fin 1e-6) x y z M u v w Dx Dy Dz x0 y0 z0
  /\ calculate_concentration_instantaneous
       (Fin t) x y z M u v w Dx Dy Dz x0 y0 z0
     = C_raw (Fin 1e-6) x y z M u v w Dx Dy Dz x0 y0 z0.
Proof.
  intros [Ht Hle].
  assert (calculate_concentration_instantaneous
            (Fin t) x y z M u v w Dx Dy Dz x0 y0 z0
          = C_raw (Fin 1e-6) x y z M u v w Dx Dy Dz x0 y0 z0) as Hraw.
  { rewrite compute_then_mask.
    assert (fgtb (Fin t) (Fin 0) = true) as -> by (apply fgtb_real; exact Ht).
    cbn [np_where np_maximum].
    rewrite Rmax_floor_below by exact Hle. reflexivity. }
  split; [| exact Hraw].
  rewrite Hraw. rewrite compute_then_mask.
  assert (fgtb (Fin 1e-6) (Fin 0) = true) as -> by (apply fgtb_real; lra).
  cbn [np_where np_maximum].
  rewrite Rmax_floor_below by (unfold t_floor; lra). reflexivity.
Qed.

Lemma constant_below_floor_witness :
  calculate_concentration_instantaneous
    (Fin 1e-9) (Fin 35) (Fin 10) (Fin 2.5) (Fin 10) (Fin 0.5) (Fin 0) (Fin 0)
    (Fin 1) (Fin 0.1) (Fin 0.01) (Fin 5) (Fin 10) (Fin 2.5)
  = calculate_concentration_instantaneous
      (Fin 1e-6) (Fin 35) (Fin 10) (Fin 2.5) (Fin 10) (Fin 0.5) (Fin 0) (Fin 0)
      (Fin 1) (Fin 0.1) (Fin 0.01) (Fin 5) (Fin 10) (Fin 2.5)
  /\ calculate_concentration_instantaneous
       (Fin 1e-9) (Fin 35) (Fin 10) (Fin 2.5) (Fin 10) (Fin 0.5) (Fin 0)
       (Fin 0) (Fin 1) (Fin 0.1) (Fin 0.01) (Fin 5) (Fin 10) (Fin 2.5)
     = C_raw (Fin 1e-6) (Fin 35) (Fin 10) (Fin 2.5) (Fin 10) (Fin 0.5)
         (Fin 0) (Fin 0) (Fin 1) (Fin 0.1) (Fin 0.01) (Fin 5) (Fin 10)
         (Fin 2.5).
Proof.
  apply (constant_below_floor 1e-9). lra.
Defined.

(** *** A vanishing dispersion coefficient *)

Lemma Rsign_zero : Rsign 0 = Zero.
Proof.
  unfold Rsign. rewrite !Rlt_dec_false by apply Rlt_irrefl. reflexivity.
Qed.

Lemma inf_of_times_zero (s : sign) : fmul (inf_of s) (Fin 0) = NaN.
Proof.
  destruct s; cbn; rewrite ?Rsign_zero; reflexivity.
Qed.

Lemma inf_of_times_nan (s : sign) : fmul (inf_of s) NaN = NaN.
Proof. destruct s; reflexivity. Qed.

Lemma Rsign_nonpos (r : R) : r <= 0 -> Rsign r <> Pos.
Proof.
  intro H. unfold Rsign.
  rewrite Rlt_dec_false by lra.
  destruct (Rlt_dec r 0); discriminate.
Qed.

(** One summand of the exponent, on finite operands: never [inf], and
    [-inf] or [nan] when its dispersion coefficient is zero. *)
Lemma axis_term_cases (p p0 vel D ts : R) :
  let a := fdiv (fneg (fpow_nat (fsub (fsub (Fin p) (Fin p0))
                                      (fmul (Fin vel) (Fin ts))) 2))
                (fmul (fmul (Fin 4) (Fin D)) (Fin ts)) in
  a <> PInf /\ (D = 0 -> ninf_or_nan a).
Proof.
  cbv beta iota zeta delta [fdiv fneg fpow_nat fsub fadd fmul].
  set (n := - (p + - p0 + - (vel * ts)) ^ 2).
  assert (n <= 0) as Hn.
  { unfold n. pose proof (pow2_ge_0 (p + - p0 + - (vel * ts))). lra. }
  pose proof (Rsign_nonpos n Hn) as Hs.
  destruct (Req_dec_T (4 * D * ts) 0) as [Hz | Hnz].
  - unfold ninf_or_nan.
    destruct (Rsign n); cbn; split; try discriminate; try congruence; auto.
  - split; [discriminate |].
    intro HD. exfalso. apply Hnz. rewrite HD. ring.
Qed.

Lemma fadd_no_pinf (a b : f64) : a <> PInf -> b <> PInf -> fadd a b <> PInf.
Proof. destruct a, b; cbn; congruence. Qed.

Lemma fadd_ninf_or_nan_l (a b : f64) :
  ninf_or_nan a -> b <> PInf -> ninf_or_nan (fadd a b).
Proof.
  unfold ninf_or_nan. intros [-> | ->] Hb; destruct b; cbn; auto; congruence.
Qed.

Lemma fadd_ninf_or_nan_r (a b : f64) :
  a <> PInf -> ninf_or_nan b -> ninf_or_nan (fadd a b).
Proof.
  unfold ninf_or_nan. intros Ha [-> | ->]; destruct a; cbn; auto; congruence.
Qed.

Lemma ninf_or_nan_no_pinf (a : f64) : ninf_or_nan a -> a <> PInf.
Proof. intros [-> | ->]; discriminate. Qed.

Lemma zero_coefficient_gives_nan (ts x y z M u v w Dx Dy Dz x0 y0 z0 : R) :
  0 < ts -> Dx = 0 \/ Dy = 0 \/ Dz = 0 ->
  C_raw (Fin ts) (Fin x) (Fin y) (Fin z) (Fin M) (Fin u) (Fin v) (Fin w)
        (Fin Dx) (Fin Dy) (Fin Dz) (Fin x0) (Fin y0) (Fin z0) = NaN.
Proof.
  intros Hts HD.
  assert (Dx * Dy * Dz = 0) as HP.
  { destruct HD as [-> | [-> | ->]]; ring. }
  destruct (axis_term_cases x x0 u Dx ts) as [Hx Hx0].
  destruct (axis_term_cases y y0 v Dy ts) as [Hy Hy0].
  destruct (axis_term_cases z z0 w Dz ts) as [Hz Hz0].
  unfold C_raw, np_pi.
  set (ex := fdiv (fneg (fpow_nat (fsub (fsub (Fin x) (Fin x0))
                                        (fmul (Fin u) (Fin ts))) 2))
                  (fmul (fmul (Fin 4) (Fin Dx)) (Fin ts))) in *.
  set (ey := fdiv (fneg (fpow_nat (fsub (fsub (Fin y) (Fin y0))
                                        (fmul (Fin v) (Fin ts))) 2))
                  (fmul (fmul (Fin 4) (Fin Dy)) (Fin ts))) in *.
  set (ez := fdiv (fneg (fpow_nat (fsub (fsub (Fin z) (Fin z0))
                                        (fmul (Fin w) (Fin ts))) 2))
                  (fmul (fmul (Fin 4) (Fin Dz)) (Fin ts))) in *.
  assert (ninf_or_nan (fadd (fadd ex ey) ez)) as Hsum.
  { destruct HD as [H | [H | H]].
    - apply fadd_ninf_or_nan_l; [| exact Hz].
      apply fadd_ninf_or_nan_l; [exact (Hx0 H) | exact Hy].
    - apply fadd_ninf_or_nan_l; [| exact Hz].
      apply fadd_ninf_or_nan_r; [exact Hx | exact (Hy0 H)].
    - apply fadd_ninf_or_nan_r; [| exact (Hz0 H)].
      apply fadd_no_pinf; assumption. }
  assert (fdiv (Fin M)
            (fmul (fpow (fmul (fmul (Fin 4) (Fin PI)) (Fin ts)) 1.5)
                  (np_sqrt (fmul (fmul (Fin Dx) (Fin Dy)) (Fin Dz))))
          = inf_of (Rsign M)) as Hterm1.
  { cbn. rewrite (Rlt_dec_true 0 (4 * PI * ts)) by (apply four_pi_pos; exact Hts).
    rewrite HP. rewrite (Rlt_dec_false 0 0) by apply Rlt_irrefl.
    cbn. rewrite sqrt_0. rewrite Req_dec_T_true by ring. reflexivity. }
  rewrite Hterm1.
  destruct Hsum as [-> | ->]; cbn [np_exp].
  - apply inf_of_times_zero.
  - apply inf_of_times_nan.
Qed.

Lemma dispersion_check_stops (Dx Dy Dz : R) :
  dispersion_check (Fin Dx) (Fin Dy) (Fin Dz) = Stopped
  <-> Dx = 0 \/ Dy = 0 \/ Dz = 0.
Proof.
  unfold dispersion_check. cbn.
  destruct (Req_dec_T Dx 0), (Req_dec_T Dy 0), (Req_dec_T Dz 0); cbn;
    split; intro H; try reflexivity; try discriminate; auto;
    destruct H as [H | [H | H]]; contradiction.
Qed.






(** In exact arithmetic the value is positive wherever the time, the mass
    and the dispersion coefficients are. *)
Lemma output_pos_exact (t x y z M u v w Dx Dy Dz x0 y0 z0 : R) :
  0 < t -> 0 < M -> 0 < Dx -> 0 < Dy -> 0 < Dz ->
  finite_pos
    (calculate_concentration_instantaneous
       (Fin t) (Fin x) (Fin y) (Fin z) (Fin M) (Fin u) (Fin v) (Fin w)
       (Fin Dx) (Fin Dy) (Fin Dz) (Fin x0) (Fin y0) (Fin z0)).
Proof.
  intros Ht HM Hx Hy Hz.
  rewrite body_on_reals by assumption.
  rewrite Rlt_dec_true by exact Ht. cbn.
  apply gaussian_puff_pos; assumption.
Qed.

Lemma ln_2_le_1 : ln 2 <= 1.
Proof.
  rewrite <- (ln_exp 1).
  destruct (Rle_lt_or_eq_dec 2 (exp 1)) as [Hlt | Heq].
  - pose proof (exp_ineq1_le 1). lra.
  - left. apply ln_increasing; lra.
  - rewrite <- Heq. right. reflexivity.
Qed.

(** The least positive binary64 number is [2^-1074]: a positive real below
    [2^-1075] has no nearer binary64 number than zero.  At the default
    parameters of the page, one second after the release and one hundred
    metres downstream, the exact value is below that bound. *)
Lemma far_output_below_least_float :
  exists c,
    calculate_concentration_instantaneous
      (Fin 1) (Fin 100) (Fin 10) (Fin 2.5) (Fin 10) (Fin 0.5) (Fin 0) (Fin 0)
      (Fin 1) (Fin 0.1) (Fin 0.01) (Fin 5) (Fin 10) (Fin 2.5) = Fin c
    /\ 0 < c < Rpower 2 (- 1075).
Proof.
  rewrite body_on_reals by lra.
  rewrite Rlt_dec_true by lra.
  eexists. split; [reflexivity |].
  split; [apply gaussian_puff_pos; lra |].
  rewrite Rmax_left by (unfold t_floor; lra).
  unfold gaussian_puff.
  assert (puff_prefactor 1 10 1 0.1 0.01 <= Rpower 2 9) as Hpre.
  { unfold puff_prefactor.
    assert (1 <= Rpower (4 * PI * 1) 1.5) as Hp.
    { rewrite <- (Rpower_O (4 * PI * 1)) at 1 by (pose proof PI_RGT_0; lra).
      apply Rle_Rpower; [| lra].
      pose proof PI2_3_2. unfold PI2 in *. lra. }
    assert (0.03 <= sqrt (1 * 0.1 * 0.01)) as Hs.
    { rewrite <- (sqrt_square 0.03) by lra.
      apply sqrt_le_1; lra. }
    replace (Rpower 2 9) with 512.
    2:{ replace 9 with (INR 9) by (simpl; lra).
        rewrite Rpower_pow by lra. simpl. lra. }
    assert (0.03 <= Rpower (4 * PI * 1) 1.5 * sqrt (1 * 0.1 * 0.01)) as Hden
        by nra.
    apply Rle_trans with (10 / 0.03); [| lra].
    unfold Rdiv. apply Rmult_le_compat_l; [lra |].
    apply Rinv_le_contravar; lra. }
  assert (exp (puff_exponent 1 100 10 2.5 0.5 0 0 1 0.1 0.01 5 10 2.5)
          <= Rpower 2 (- 2232)) as Hexp.
  { unfold Rpower.
    assert (puff_exponent 1 100 10 2.5 0.5 0 0 1 0.1 0.01 5 10 2.5
            <= - 2232 * ln 2) as Harg.
    { unfold puff_exponent. pose proof ln_2_le_1.
      assert (0 < ln 2) by (pose proof ln_lt_2; lra).
      replace (- (100 - 5 - 0.5 * 1) ^ 2 / (4 * 1 * 1)
               + - (10 - 10 - 0 * 1) ^ 2 / (4 * 0.1 * 1)
               + - (2.5 - 2.5 - 0 * 1) ^ 2 / (4 * 0.01 * 1))
        with (- 2232.5625) by (field_simplify; lra).
      nra. }
    destruct Harg as [Hlt | Heq].
    - left. apply exp_increasing. exact Hlt.
    - rewrite Heq. right. reflexivity. }
  pose proof (exp_pos (puff_exponent 1 100 10 2.5 0.5 0 0 1 0.1 0.01 5 10 2.5)).
  pose proof (puff_prefactor_pos 1 10 1 0.1 0.01) as Hpp.
  assert (0 < puff_prefactor 1 10 1 0.1 0.01) as Hpos by (apply Hpp; lra).
  apply Rle_lt_trans with (Rpower 2 9 * Rpower 2 (- 2232)).
  - apply Rmult_le_compat; lra.
  - rewrite <- Rpower_plus. apply Rpower_lt; lra.
Qed.

(** ** The Gaussian integral

    The integral of [exp (- s^2)] over the line is [sqrt PI].  With [E] the
    primitive of the unit Gaussian that vanishes at 0 and
    [W t] the integral over [[0, 1]] of [exp (- t^2 (1 + x^2)) / (1 + x^2)],
    the function [E^2 + W] has a null derivative, so it is the constant
    [W 0 = atan 1 = PI / 4]; and [W t] is at most [exp (- t^2)], which tends
    to 0.  Hence [E] tends to [sqrt PI / 2] at plus infinity, and to its
    opposite at minus infinity since [E] is odd. *)

(** *** Riemann integrals as a relation *)

Lemma is_RInt_unique (f : R -> R) (a b I J : R) :
  is_RInt f a b I -> is_RInt f a b J -> I = J.
Proof.
  intros [p <-] [q <-]. apply RiemannInt_P5.
Qed.

Lemma derivable_pt_lim_eq (f : R -> R) (x l l' : R) :
  derivable_pt_lim f x l -> l = l' -> derivable_pt_lim f x l'.
Proof. intros H <-. exact H. Qed.

(** The fundamental theorem of calculus, for an antiderivative known on the
    whole line. *)
Lemma FTC_is_RInt (F f : R -> R) (a b : R) :
  (forall x, derivable_pt_lim F x (f x)) ->
  continuity f ->
  is_RInt f a b (F b - F a).
Proof.
  intros HF Hc.
  assert (derivable F) as dF.
  { intro x. exists (f x). apply HF. }
  assert (derive F dF = f) as Hd.
  { apply functional_extensionality. intro x. unfold derive.
    apply derive_pt_eq_0. apply HF. }
  assert (continuity (derive F dF)) as cF.
  { rewrite Hd. exact Hc. }
  pose (G := mkC1 cF).
  pose proof (RiemannInt_P32 G a b) as pr.
  pose proof (FTC_Riemann G pr) as Heq.
  simpl in pr, Heq.
  revert pr Heq. rewrite Hd. intros pr Heq.
  exists pr. exact Heq.
Qed.

Lemma is_RInt_const_bound (f : R -> R) (a b l u I : R) :
  a <= b -> (forall x, a < x < b -> l <= f x <= u) ->
  is_RInt f a b I -> l * (b - a) <= I <= u * (b - a).
Proof.
  intros Hab Hb [pr <-]. apply RiemannInt_const_bound; assumption.
Qed.

Lemma is_RInt_plus_scal (f g : R -> R) (a b l I J : R) :
  is_RInt f a b I -> is_RInt g a b J ->
  is_RInt (fun x => f x + l * g x) a b (I + l * J).
Proof.
  intros [p <-] [q <-].
  exists (RiemannInt_P10 l p q). apply RiemannInt_P13.
Qed.

Lemma is_RInt_ext (f g : R -> R) (a b I : R) :
  (forall x, f x = g x) -> is_RInt f a b I -> is_RInt g a b I.
Proof.
  intros H. assert (f = g) as -> by (apply functional_extensionality; exact H).
  trivial.
Qed.

(** *** Mean value inequalities *)

(** A bound on the derivative bounds the increments, whatever the order of
    the end points. *)
Lemma increment_bound (f f' : R -> R) (a b K : R) :
  (forall c, Rmin a b <= c <= Rmax a b ->
             derivable_pt_lim f c (f' c) /\ Rabs (f' c) <= K) ->
  Rabs (f b - f a) <= K * Rabs (b - a).
Proof.
  intros H.
  destruct (Rtotal_order a b) as [Hlt | [Heq | Hgt]].
  - destruct (MVT_cor2 f f' a b Hlt) as [c [Hc Hin]].
    + intros c Hc. apply H. rewrite Rmin_left, Rmax_right by lra. exact Hc.
    + rewrite Hc, Rabs_mult. apply Rmult_le_compat_r; [apply Rabs_pos |].
      apply H. rewrite Rmin_left, Rmax_right by lra. lra.
  - subst b. replace (f a - f a) with 0 by ring.
    replace (a - a) with 0 by ring. rewrite Rabs_R0. lra.
  - destruct (MVT_cor2 f f' b a Hgt) as [c [Hc Hin]].
    + intros c Hc. apply H. rewrite Rmin_right, Rmax_left by lra. exact Hc.
    + rewrite <- (Rabs_Ropp (f b - f a)), <- (Rabs_Ropp (b - a)).
      replace (- (f b - f a)) with (f a - f b) by ring.
      replace (- (b - a)) with (a - b) by ring.
      rewrite Hc, Rabs_mult. apply Rmult_le_compat_r; [apply Rabs_pos |].
      apply H. rewrite Rmin_right, Rmax_left by lra. lra.
Qed.

Lemma constant_of_null_derivative (f : R -> R) (a b : R) :
  (forall c, derivable_pt_lim f c 0) -> f b = f a.
Proof.
  intro H.
  pose proof (increment_bound f (fun _ => 0) a b 0) as Hb.
  assert (Rabs (f b - f a) <= 0 * Rabs (b - a)) as Hle.
  { apply Hb. intros c _. split; [apply H | rewrite Rabs_R0; lra]. }
  rewrite Rmult_0_l in Hle.
  pose proof (Rabs_pos (f b - f a)).
  assert (Rabs (f b - f a) = 0) as Hz by lra.
  destruct (Req_dec (f b - f a) 0) as [Heq | Hne]; [lra |].
  apply Rabs_no_R0 in Hne. contradiction.
Qed.

Lemma Rabs_le_between (a b : R) : Rabs a <= b -> - b <= a <= b.
Proof. unfold Rabs. destruct (Rcase_abs a); lra. Qed.

(** *** Antiderivatives of continuous functions *)

(** The derivative at a point depends on the function near the point only. *)
Lemma derivable_pt_lim_local (f g : R -> R) (x l d : R) :
  0 < d ->
  (forall y, Rabs (y - x) < d -> f y = g y) ->
  derivable_pt_lim g x l -> derivable_pt_lim f x l.
Proof.
  intros Hd Heq Hg eps Heps.
  destruct (Hg eps Heps) as [delta Hdelta].
  assert (0 < Rmin delta d) as Hm.
  { apply Rmin_pos; [apply cond_pos | exact Hd]. }
  exists (mkposreal _ Hm). intros h Hh Hlt. simpl in Hlt.
  rewrite (Heq (x + h)), (Heq x).
  - apply Hdelta; [exact Hh |].
    apply Rlt_le_trans with (Rmin delta d); [exact Hlt | apply Rmin_l].
  - replace (x - x) with 0 by ring. rewrite Rabs_R0. exact Hd.
  - replace (x + h - x) with h by ring.
    apply Rlt_le_trans with (Rmin delta d); [exact Hlt | apply Rmin_r].
Qed.

Lemma integrable_from_zero (f : R -> R) (x : R) :
  continuity f -> Riemann_integrable f 0 x.
Proof.
  intro Hc. destruct (Rle_dec 0 x) as [H | H].
  - apply continuity_implies_RiemannInt; [exact H | intros y _; apply Hc].
  - apply RiemannInt_P1.
    apply continuity_implies_RiemannInt; [lra | intros y _; apply Hc].
Qed.

(** A continuous function has an antiderivative on the whole line, which
    vanishes at 0. *)
Lemma continuous_antiderivative (f : R -> R) :
  continuity f ->
  exists F, F 0 = 0 /\ forall x, derivable_pt_lim F x (f x).
Proof.
  intro Hc.
  exists (fun x => RiemannInt (integrable_from_zero f x Hc)).
  split.
  - apply RiemannInt_P9.
  - intro x.
    set (a := - Rabs x - 1). set (b := Rabs x + 1).
    pose proof (Rabs_pos x) as Hax.
    assert (a <= b) as hab by (unfold a, b; lra).
    assert (forall y, a <= y <= b -> continuity_pt f y) as C0
        by (intros y _; apply Hc).
    assert (a < x < b) as Hx.
    { unfold a, b. destruct (Rcase_abs x) as [Hn | Hp].
      - rewrite (Rabs_left _ Hn). lra.
      - rewrite (Rabs_right _ Hp). lra. }
    assert (a <= 0 <= b) as H0 by (unfold a, b; lra).
    set (P := primitive hab (FTC_P1 hab C0)).
    apply derivable_pt_lim_local
      with (g := fun y => P y - P 0) (d := Rmin (x - a) (b - x)).
    + apply Rmin_pos; lra.
    + intros y Hy.
      assert (a <= y <= b) as Hyab.
      { pose proof (Rmin_l (x - a) (b - x)). pose proof (Rmin_r (x - a) (b - x)).
        apply Rabs_def2 in Hy. lra. }
      unfold P, primitive.
      destruct (Rle_dec a y) as [r1 | n1]; [| lra].
      destruct (Rle_dec y b) as [r2 | n2]; [| lra].
      destruct (Rle_dec a 0) as [r3 | n3]; [| lra].
      destruct (Rle_dec 0 b) as [r4 | n4]; [| lra].
      rewrite <- (RiemannInt_P26 (FTC_P1 hab C0 r3 r4)
                    (integrable_from_zero f y Hc)
                    (FTC_P1 hab C0 r1 r2)).
      ring.
    + apply derivable_pt_lim_eq with (f x - 0); [| ring].
      apply derivable_pt_lim_minus.
      * apply RiemannInt_P28. lra.
      * apply derivable_pt_lim_const.
Qed.

(** *** The auxiliary integrand and its derivatives *)

Lemma continuity_gauss : continuity gauss.
Proof. unfold gauss. reg. Qed.

Lemma continuity_wedge (t : R) : continuity (wedge t).
Proof.
  unfold wedge. intro x. reg.
  pose proof (Rle_0_sqr x). unfold Rsqr in *. lra.
Qed.

Lemma continuity_wedge_t (t : R) : continuity (wedge_t t).
Proof. unfold wedge_t. reg. Qed.

(** A derivative computed by [reg], up to an equation on its value. *)
Ltac derive_reg :=
  match goal with
  | |- derivable_pt_lim ?f ?t ?l =>
      let pr := fresh "pr" in
      assert (pr : derivable_pt f t) by reg;
      apply (derive_pt_eq_1 f t l pr); reg
  end.

Lemma one_plus_sqr_pos (x : R) : 0 < 1 + x * x.
Proof. pose proof (Rle_0_sqr x). unfold Rsqr in *. lra. Qed.

Lemma wedge_deriv (x t : R) :
  derivable_pt_lim (fun s => wedge s x) t (wedge_t t x).
Proof.
  pose proof (one_plus_sqr_pos x).
  unfold wedge, wedge_t. derive_reg. field. lra.
Qed.

Lemma wedge_t_deriv (x t : R) :
  derivable_pt_lim (fun s => wedge_t s x) t (wedge_tt t x).
Proof.
  unfold wedge_t, wedge_tt. derive_reg. unfold comp. ring.
Qed.

Lemma exp_nonpos_le_1 (r : R) : r <= 0 -> exp r <= 1.
Proof.
  intro H. rewrite <- exp_0. destruct H as [H | ->].
  - left. apply exp_increasing. exact H.
  - right. reflexivity.
Qed.

Lemma wedge_tt_bound (t0 s x : R) :
  Rabs (s - t0) <= 1 -> 0 <= x <= 1 ->
  Rabs (wedge_tt s x) <= 2 + 8 * ((Rabs t0 + 1) * (Rabs t0 + 1)).
Proof.
  intros Hs Hx. unfold wedge_tt.
  pose proof (one_plus_sqr_pos x) as HK.
  assert (0 <= s * s) as Hss by (pose proof (Rle_0_sqr s); unfold Rsqr in *; lra).
  assert (s * s <= (Rabs t0 + 1) * (Rabs t0 + 1)) as Hsb.
  { assert (Rabs s <= Rabs t0 + 1) as Ha.
    { replace s with ((s - t0) + t0) at 1 by ring.
      pose proof (Rabs_triang (s - t0) t0). lra. }
    pose proof (Rabs_pos s). pose proof (Rabs_pos t0).
    replace (s * s) with (Rabs s * Rabs s).
    - apply Rmult_le_compat; lra.
    - rewrite <- Rabs_mult. apply Rabs_right.
      apply Rle_ge. exact Hss. }
  assert (x * x <= 1) as Hxx by nra.
  assert (0 < exp (- (s * s) * (1 + x * x)) <= 1) as [He0 He1].
  { split; [apply exp_pos |]. apply exp_nonpos_le_1. nra. }
  rewrite Rabs_mult. rewrite (Rabs_right (exp _)) by lra.
  assert (Rabs (-2 + 4 * (s * s) * (1 + x * x))
          <= 2 + 8 * ((Rabs t0 + 1) * (Rabs t0 + 1))) as Hb.
  { apply Rabs_le. split; nra. }
  pose proof (Rabs_pos (-2 + 4 * (s * s) * (1 + x * x))).
  nra.
Qed.

(** Differentiation under the integral sign on [[0, 1]], for an integrand
    whose second derivative in the parameter is locally bounded. *)
Section Parametric.

Variables p p1 p2 : R -> R -> R.
Variable bound : R -> R.
Hypothesis p_deriv : forall x t, derivable_pt_lim (fun s => p s x) t (p1 t x).
Hypothesis p1_deriv : forall x t, derivable_pt_lim (fun s => p1 s x) t (p2 t x).
Hypothesis p2_bound :
  forall t0 s x, Rabs (s - t0) <= 1 -> 0 <= x <= 1 ->
                 Rabs (p2 s x) <= bound t0.
Variables P P1 : R -> R.
Hypothesis P_int : forall t, is_RInt (p t) 0 1 (P t).
Hypothesis P1_int : forall t, is_RInt (p1 t) 0 1 (P1 t).

Lemma second_order_remainder (t h x : R) :
  Rabs h <= 1 -> 0 <= x <= 1 ->
  Rabs (p (t + h) x - p t x - h * p1 t x) <= bound t * Rabs h * Rabs h.
Proof.
  intros Hh Hx.
  assert (0 <= bound t) as HK.
  { apply Rle_trans with (Rabs (p2 t x)); [apply Rabs_pos |].
    apply (p2_bound t t x); [| exact Hx].
    replace (t - t) with 0 by ring. rewrite Rabs_R0. lra. }
  pose (psi := fun s => p s x - p t x - (s - t) * p1 t x).
  pose (psi' := fun s => p1 s x - p1 t x).
  assert (forall c, Rmin t (t + h) <= c <= Rmax t (t + h) ->
                    Rabs (c - t) <= Rabs h) as Hbetween.
  { intros c Hc. unfold Rmin, Rmax in Hc.
    destruct (Rle_dec t (t + h)) as [Hle | Hgt].
    - rewrite (Rabs_right h) by lra. rewrite Rabs_right by lra. lra.
    - rewrite (Rabs_left h) by lra. rewrite Rabs_left1 by lra. lra. }
  assert (Rabs (psi (t + h) - psi t) <= (bound t * Rabs h) * Rabs (t + h - t))
    as Hinc.
  { apply (increment_bound psi psi').
    intros c Hc. split.
    - unfold psi, psi'.
      apply derivable_pt_lim_eq with (p1 c x - 0 - (1 - 0) * p1 t x); [| ring].
      apply derivable_pt_lim_minus.
      + apply derivable_pt_lim_minus; [apply p_deriv |].
        apply derivable_pt_lim_const.
      + apply (derivable_pt_lim_scal_right (fun s => s - t)).
        apply derivable_pt_lim_minus;
          [apply derivable_pt_lim_id | apply derivable_pt_lim_const].
    - unfold psi'.
      apply Rle_trans with (bound t * Rabs (c - t)).
      + apply (increment_bound (fun s => p1 s x) (fun s => p2 s x)).
        intros d Hd. split; [apply p1_deriv |].
        apply (p2_bound t d x); [| exact Hx].
        apply Rle_trans with (Rabs h); [| exact Hh].
        apply Rle_trans with (Rabs (c - t)); [| apply Hbetween; exact Hc].
        unfold Rmin, Rmax in Hd.
        destruct (Rle_dec t c) as [Hle | Hgt].
        * rewrite !Rabs_right by lra. lra.
        * rewrite !Rabs_left1 by lra. lra.
      + apply Rmult_le_compat_l; [exact HK | apply Hbetween; exact Hc]. }
  unfold psi in Hinc.
  replace (t + h - t) with h in Hinc by ring.
  replace (p (t + h) x - p t x - h * p1 t x - (p t x - p t x - (t - t) * p1 t x))
    with (p (t + h) x - p t x - h * p1 t x) in Hinc by ring.
  exact Hinc.
Qed.

Lemma derivable_under_integral (t : R) : derivable_pt_lim P t (P1 t).
Proof.
  intros eps Heps.
  assert (0 <= bound t) as HK.
  { apply Rle_trans with (Rabs (p2 t 0)); [apply Rabs_pos |].
    apply (p2_bound t t 0); [| lra].
    replace (t - t) with 0 by ring. rewrite Rabs_R0. lra. }
  assert (0 < Rmin 1 (eps / (bound t + 1))) as Hd.
  { apply Rmin_pos; [lra |]. apply Rdiv_lt_0_compat; lra. }
  exists (mkposreal _ Hd). intros h Hh Hlt. simpl in Hlt.
  assert (Rabs h < 1) as Hh1.
  { apply Rlt_le_trans with (Rmin 1 (eps / (bound t + 1)));
      [exact Hlt | apply Rmin_l]. }
  assert (Rabs h < eps / (bound t + 1)) as Hh2.
  { apply Rlt_le_trans with (Rmin 1 (eps / (bound t + 1)));
      [exact Hlt | apply Rmin_r]. }
  assert (0 < Rabs h) as Hhpos by (apply Rabs_pos_lt; exact Hh).
  assert (is_RInt (fun x => (p (t + h) x + -1 * p t x) + - h * p1 t x) 0 1
            ((P (t + h) + -1 * P t) + - h * P1 t)) as Hrem.
  { apply is_RInt_plus_scal; [| apply P1_int].
    apply is_RInt_plus_scal; apply P_int. }
  assert (Rabs ((P (t + h) + -1 * P t) + - h * P1 t)
          <= bound t * Rabs h * Rabs h) as Hbnd.
  { apply Rabs_le.
    assert (- (bound t * Rabs h * Rabs h) * (1 - 0)
            <= P (t + h) + -1 * P t + - h * P1 t
            <= bound t * Rabs h * Rabs h * (1 - 0)) as Hres.
    { apply (is_RInt_const_bound
               (fun x => (p (t + h) x + -1 * p t x) + - h * p1 t x) 0 1);
        [lra | | exact Hrem].
      intros x Hx.
      pose proof (second_order_remainder t h x) as Hr.
      assert (Rabs (p (t + h) x - p t x - h * p1 t x)
              <= bound t * Rabs h * Rabs h) as Hr' by (apply Hr; lra).
      apply Rabs_le_between in Hr'. lra. }
    lra. }
  replace ((P (t + h) - P t) / h - P1 t)
    with (((P (t + h) + -1 * P t) + - h * P1 t) / h) by (field; exact Hh).
  unfold Rdiv. rewrite Rabs_mult, Rabs_inv.
  apply Rle_lt_trans with (bound t * Rabs h * Rabs h * / Rabs h).
  - apply Rmult_le_compat_r; [left; apply Rinv_0_lt_compat; exact Hhpos |].
    exact Hbnd.
  - replace (bound t * Rabs h * Rabs h * / Rabs h) with (bound t * Rabs h)
      by (field; lra).
    apply Rle_lt_trans with ((bound t + 1) * Rabs h); [nra |].
    apply Rlt_le_trans with ((bound t + 1) * (eps / (bound t + 1))).
    + apply Rmult_lt_compat_l; [lra | exact Hh2].
    + right. field. lra.
Qed.

End Parametric.

(** *** The limit of the primitive of the unit Gaussian *)

Lemma derivable_pt_lim_comp_fun (u F : R -> R) (x l1 l2 : R) :
  derivable_pt_lim u x l1 ->
  derivable_pt_lim F (u x) l2 ->
  derivable_pt_lim (fun y => F (u y)) x (l2 * l1).
Proof.
  intros Hu HF. exact (derivable_pt_lim_comp u F x l1 l2 Hu HF).
Qed.

Lemma gauss_pos (x : R) : 0 < gauss x.
Proof. apply exp_pos. Qed.

Lemma gauss_even (x : R) : gauss (- x) = gauss x.
Proof. unfold gauss. f_equal. ring. Qed.

Lemma gauss_small (x : R) : 0 < x -> gauss x < / x.
Proof.
  intro Hx. unfold gauss.
  rewrite exp_Ropp.
  apply Rinv_lt_contravar.
  - apply Rmult_lt_0_compat; [exact Hx | apply exp_pos].
  - pose proof (exp_ineq1_le (x * x)). nra.
Qed.

Lemma half_sqrt_pi_pos : 0 < half_sqrt_pi.
Proof.
  unfold half_sqrt_pi. pose proof (sqrt_lt_R0 PI PI_RGT_0). lra.
Qed.

Lemma half_sqrt_pi_sqr : half_sqrt_pi * half_sqrt_pi = PI / 4.
Proof.
  unfold half_sqrt_pi.
  pose proof (sqrt_sqrt PI (Rlt_le _ _ PI_RGT_0)) as H.
  replace (sqrt PI / 2 * (sqrt PI / 2)) with (sqrt PI * sqrt PI / 4) by field.
  rewrite H. reflexivity.
Qed.

Section ErrorFunction.

Variable E : R -> R.
Hypothesis E_0 : E 0 = 0.
Hypothesis E_deriv : forall x, derivable_pt_lim E x (gauss x).

Variables W W1 : R -> R.
Hypothesis W_int : forall t, is_RInt (wedge t) 0 1 (W t).
Hypothesis W1_int : forall t, is_RInt (wedge_t t) 0 1 (W1 t).

Lemma W_deriv (t : R) : derivable_pt_lim W t (W1 t).
Proof.
  apply (derivable_under_integral wedge wedge_t wedge_tt
           (fun t0 => 2 + 8 * ((Rabs t0 + 1) * (Rabs t0 + 1)))).
  - apply wedge_deriv.
  - apply wedge_t_deriv.
  - apply wedge_tt_bound.
  - exact W_int.
  - exact W1_int.
Qed.

Lemma W1_value (t : R) : W1 t = - 2 * gauss t * E t.
Proof.
  apply (is_RInt_unique (wedge_t t) 0 1); [apply W1_int |].
  replace (- 2 * gauss t * E t)
    with (- 2 * gauss t * E (t * 1) - - 2 * gauss t * E (t * 0)).
  2:{ rewrite Rmult_1_r, Rmult_0_r, E_0. ring. }
  apply (FTC_is_RInt (fun x => - 2 * gauss t * E (t * x))).
  - intro x.
    apply derivable_pt_lim_eq with (- 2 * gauss t * (gauss (t * x) * (t * 1))).
    + apply (derivable_pt_lim_scal (fun y => E (t * y)) (- 2 * gauss t)).
      apply (derivable_pt_lim_comp_fun (fun y => t * y) E).
      * apply (derivable_pt_lim_scal (fun y => y) t). apply derivable_pt_lim_id.
      * apply E_deriv.
    + unfold wedge_t, gauss.
      replace (- (t * t) * (1 + x * x))
        with (- (t * t) + - (t * x * (t * x))) by ring.
      rewrite exp_plus. ring.
  - apply continuity_wedge_t.
Qed.

Lemma W_0 : W 0 = PI / 4.
Proof.
  apply (is_RInt_unique (wedge 0) 0 1); [apply W_int |].
  replace (PI / 4) with (atan 1 - atan 0) by (rewrite atan_1, atan_0; ring).
  apply is_RInt_ext with (fun x => / (1 + x ^ 2)).
  - intro x. unfold wedge.
    replace (- (0 * 0) * (1 + x * x)) with 0 by ring.
    rewrite exp_0. unfold Rdiv. simpl. rewrite Rmult_1_r. ring.
  - apply (FTC_is_RInt atan).
    + apply derivable_pt_lim_atan.
    + intro x. reg. pose proof (pow2_ge_0 x). simpl in *. lra.
Qed.

Lemma W_bounds (t : R) : 0 <= W t <= gauss t.
Proof.
  pose proof (is_RInt_const_bound (wedge t) 0 1 0 (gauss t) (W t) Rle_0_1)
    as H.
  assert (0 * (1 - 0) <= W t <= gauss t * (1 - 0)) as Hb.
  { apply H; [| apply W_int].
    intros x Hx. unfold wedge, gauss.
    pose proof (one_plus_sqr_pos x) as HK.
    pose proof (exp_pos (- (t * t) * (1 + x * x))) as He.
    assert (exp (- (t * t) * (1 + x * x)) <= exp (- (t * t))) as Hle.
    { assert (- (t * t) * (1 + x * x) <= - (t * t)) as Harg.
      { pose proof (Rle_0_sqr t). pose proof (Rle_0_sqr x).
        unfold Rsqr in *. nra. }
      destruct Harg as [Hlt | Heq].
      - left. apply exp_increasing. exact Hlt.
      - rewrite Heq. right. reflexivity. }
    split.
    - apply Rmult_le_pos; [lra | left; apply Rinv_0_lt_compat; exact HK].
    - apply Rle_trans with (exp (- (t * t) * (1 + x * x)) / 1).
      + unfold Rdiv. apply Rmult_le_compat_l; [lra |].
        apply Rinv_le_contravar; [lra |].
        pose proof (Rle_0_sqr x). unfold Rsqr in *. lra.
      + unfold Rdiv. rewrite Rinv_1, Rmult_1_r. exact Hle. }
  lra.
Qed.

Lemma E_sqr_plus_W (t : R) : E t * E t + W t = PI / 4.
Proof.
  rewrite <- W_0.
  replace (W 0) with (E 0 * E 0 + W 0) by (rewrite E_0; ring).
  apply (constant_of_null_derivative (fun s => E s * E s + W s)).
  intro c.
  apply derivable_pt_lim_eq
    with ((gauss c * E c + E c * gauss c) + W1 c).
  - apply derivable_pt_lim_plus; [| apply W_deriv].
    apply derivable_pt_lim_mult; apply E_deriv.
  - rewrite W1_value. ring.
Qed.

Lemma E_nonneg (t : R) : 0 <= t -> 0 <= E t.
Proof.
  intros [Ht | <-]; [| rewrite E_0; lra].
  destruct (MVT_cor2 E gauss 0 t Ht) as [c [Hc _]].
  - intros c _. apply E_deriv.
  - rewrite E_0 in Hc. pose proof (gauss_pos c). nra.
Qed.

Lemma E_odd (t : R) : E (- t) = - E t.
Proof.
  assert (E t + E (- t) = E 0 + E (- 0)) as H.
  { apply (constant_of_null_derivative (fun s => E s + E (- s))).
    intro c.
    apply derivable_pt_lim_eq with (gauss c + gauss (- c) * (- 1)).
    - apply derivable_pt_lim_plus; [apply E_deriv |].
      apply (derivable_pt_lim_comp_fun (fun y => - y) E).
      + apply derivable_pt_lim_eq with (- 1); [| reflexivity].
        apply (derivable_pt_lim_opp (fun y => y) c 1).
        apply derivable_pt_lim_id.
      + apply E_deriv.
    - rewrite gauss_even. ring. }
  rewrite Ropp_0, E_0 in H. lra.
Qed.

Lemma E_near_limit (t : R) :
  0 < t -> Rabs (E t - half_sqrt_pi) <= / t / half_sqrt_pi.
Proof.
  intro Ht.
  pose proof half_sqrt_pi_pos as HS.
  pose proof half_sqrt_pi_sqr as HS2.
  pose proof (E_nonneg t (Rlt_le _ _ Ht)) as HE.
  pose proof (E_sqr_plus_W t) as Hc.
  pose proof (W_bounds t) as [HW0 HW1].
  pose proof (gauss_small t Ht) as Hg.
  assert (0 < / t) as Hit by (apply Rinv_0_lt_compat; exact Ht).
  assert ((half_sqrt_pi - E t) * (half_sqrt_pi + E t) = W t) as Hprod by nra.
  assert (0 <= half_sqrt_pi - E t) as Hge by nra.
  assert ((half_sqrt_pi - E t) * half_sqrt_pi <= / t) as Hle by nra.
  rewrite Rabs_left1 by lra.
  apply Rmult_le_reg_r with half_sqrt_pi; [exact HS |].
  unfold Rdiv. rewrite Rmult_assoc, Rinv_l by lra. lra.
Qed.

Lemma E_limit (eps : R) :
  0 < eps ->
  exists A, 0 < A /\ forall t, A <= t -> Rabs (E t - half_sqrt_pi) < eps.
Proof.
  intro Heps.
  pose proof half_sqrt_pi_pos as HS.
  exists (/ (eps * half_sqrt_pi) + 1).
  assert (0 < eps * half_sqrt_pi) as Hp by (apply Rmult_lt_0_compat; lra).
  assert (0 < / (eps * half_sqrt_pi)) as Hip
      by (apply Rinv_0_lt_compat; exact Hp).
  split; [lra |].
  intros t Ht.
  assert (0 < t) as Htpos by lra.
  apply Rle_lt_trans with (/ t / half_sqrt_pi);
    [apply E_near_limit; exact Htpos |].
  assert (/ t < eps * half_sqrt_pi) as Hlt.
  { rewrite <- (Rinv_inv (eps * half_sqrt_pi)).
    apply Rinv_lt_contravar; [| lra].
    apply Rmult_lt_0_compat; lra. }
  apply Rmult_lt_reg_r with half_sqrt_pi; [exact HS |].
  unfold Rdiv. rewrite Rmult_assoc, Rinv_l by lra. lra.
Qed.

End ErrorFunction.

(** The primitive and the two integrals over [[0, 1]] exist. *)
Lemma integrable_on_unit (f : R -> R) :
  continuity f -> Riemann_integrable f 0 1.
Proof.
  intro Hc. apply continuity_implies_RiemannInt; [lra | intros x _; apply Hc].
Qed.

Lemma gauss_primitive_limit :
  exists E,
    (forall x, derivable_pt_lim E x (gauss x))
    /\ forall eps, 0 < eps ->
         exists A, 0 < A /\
           forall t, A <= t ->
             Rabs (E t - half_sqrt_pi) < eps
             /\ Rabs (E (- t) + half_sqrt_pi) < eps.
Proof.
  destruct (continuous_antiderivative gauss continuity_gauss) as [E [E0 Ed]].
  pose (W := fun t => RiemannInt (integrable_on_unit (wedge t) (continuity_wedge t))).
  pose (W1 := fun t =>
                RiemannInt (integrable_on_unit (wedge_t t) (continuity_wedge_t t))).
  assert (forall t, is_RInt (wedge t) 0 1 (W t)) as HW.
  { intro t. exists (integrable_on_unit (wedge t) (continuity_wedge t)).
    reflexivity. }
  assert (forall t, is_RInt (wedge_t t) 0 1 (W1 t)) as HW1.
  { intro t. exists (integrable_on_unit (wedge_t t) (continuity_wedge_t t)).
    reflexivity. }
  exists E. split; [exact Ed |].
  intros eps Heps.
  destruct (E_limit E E0 Ed W W1 HW HW1 eps Heps) as [A [HA Hlim]].
  exists A. split; [exact HA |].
  intros t Ht. split; [apply Hlim; exact Ht |].
  rewrite (E_odd E E0 Ed).
  replace (- E t + half_sqrt_pi) with (- (E t - half_sqrt_pi)) by ring.
  rewrite Rabs_Ropp. apply Hlim. exact Ht.
Qed.

(** *** Integrals over the line *)

Lemma is_RInt_scal (f : R -> R) (a b K I : R) :
  is_RInt f a b I -> is_RInt (fun x => K * f x) a b (K * I).
Proof.
  intro Hf.
  assert (is_RInt (fct_cte 0) a b 0) as H0.
  { exists (RiemannInt_P14 a b 0). rewrite RiemannInt_P15. ring. }
  pose proof (is_RInt_plus_scal (fct_cte 0) f a b K 0 I H0 Hf) as H.
  replace (K * I) with (0 + K * I) by ring.
  apply is_RInt_ext with (fun x => fct_cte 0 x + K * f x); [| exact H].
  intro x. unfold fct_cte. ring.
Qed.

Lemma is_RInt_line_ext (f g : R -> R) (I : R) :
  (forall x, f x = g x) -> is_RInt_line f I -> is_RInt_line g I.
Proof.
  intros H. assert (f = g) as -> by (apply functional_extensionality; exact H).
  trivial.
Qed.

Lemma is_RInt_line_scal (f : R -> R) (K I : R) :
  is_RInt_line f I -> is_RInt_line (fun x => K * f x) (K * I).
Proof.
  intros Hf eps Heps.
  destruct (Req_dec K 0) as [-> | HK].
  - destruct (Hf 1 Rlt_0_1) as [A HA]. exists A. intros a b Ha Hb.
    destruct (HA a b Ha Hb) as [J [HJ _]].
    exists (0 * J). split; [apply is_RInt_scal; exact HJ |].
    replace (0 * J - 0 * I) with 0 by ring. rewrite Rabs_R0. exact Heps.
  - assert (0 < Rabs K) as HKpos by (apply Rabs_pos_lt; exact HK).
    destruct (Hf (eps / Rabs K)) as [A HA].
    { apply Rdiv_lt_0_compat; assumption. }
    exists A. intros a b Ha Hb.
    destruct (HA a b Ha Hb) as [J [HJ Hclose]].
    exists (K * J). split; [apply is_RInt_scal; exact HJ |].
    replace (K * J - K * I) with (K * (J - I)) by ring.
    rewrite Rabs_mult.
    apply Rlt_le_trans with (Rabs K * (eps / Rabs K)).
    + apply Rmult_lt_compat_l; assumption.
    + right. field. lra.
Qed.

(** The integral of a Gaussian of centre [c] and width [k] over the line. *)
Lemma gaussian_line (c k : R) :
  0 < k ->
  is_RInt_line (fun s => exp (- ((s - c) * (s - c)) / k)) (sqrt k * sqrt PI).
Proof.
  intro Hk.
  pose proof (sqrt_lt_R0 k Hk) as Hsk.
  pose proof (sqrt_sqrt k (Rlt_le _ _ Hk)) as Hsq.
  destruct gauss_primitive_limit as [E [Ed Elim]].
  pose (F := fun s => sqrt k * E ((s - c) / sqrt k)).
  assert (forall s, derivable_pt_lim F s (exp (- ((s - c) * (s - c)) / k)))
    as HF.
  { intro s. unfold F.
    apply derivable_pt_lim_eq
      with (sqrt k * (gauss ((s - c) / sqrt k) * ((1 - 0) * / sqrt k))).
    - apply (derivable_pt_lim_scal (fun y => E ((y - c) / sqrt k)) (sqrt k)).
      apply (derivable_pt_lim_comp_fun (fun y => (y - c) / sqrt k) E).
      + apply (derivable_pt_lim_scal_right (fun y => y - c)).
        apply derivable_pt_lim_minus;
          [apply derivable_pt_lim_id | apply derivable_pt_lim_const].
      + apply Ed.
    - unfold gauss.
      replace (- ((s - c) / sqrt k * ((s - c) / sqrt k)))
        with (- ((s - c) * (s - c)) / k).
      + field. lra.
      + rewrite <- Hsq at 1. field. lra. }
  assert (continuity (fun s => exp (- ((s - c) * (s - c)) / k))) as Hc.
  { reg. }
  intros eps Heps.
  assert (0 < eps / (2 * sqrt k)) as Heps'.
  { apply Rdiv_lt_0_compat; lra. }
  destruct (Elim _ Heps') as [A [HA Hlim]].
  exists (Rabs c + sqrt k * A). intros a b Ha Hb.
  exists (F b - F a). split; [apply FTC_is_RInt; assumption |].
  pose proof (Rabs_pos c) as Hc0.
  pose proof (Rle_abs c) as Hc1.
  pose proof (Rle_abs (- c)) as Hc2. rewrite Rabs_Ropp in Hc2.
  assert (A <= (b - c) / sqrt k) as Hb'.
  { apply Rmult_le_reg_r with (sqrt k); [exact Hsk |].
    unfold Rdiv. rewrite Rmult_assoc, Rinv_l by lra. lra. }
  assert (A <= - ((a - c) / sqrt k)) as Ha'.
  { apply Rmult_le_reg_r with (sqrt k); [exact Hsk |].
    replace (- ((a - c) / sqrt k) * sqrt k) with (- (a - c)) by (field; lra).
    lra. }
  destruct (Hlim _ Hb') as [Hb1 _].
  destruct (Hlim _ Ha') as [_ Ha1].
  rewrite Ropp_involutive in Ha1.
  unfold F.
  replace (sqrt k * E ((b - c) / sqrt k) - sqrt k * E ((a - c) / sqrt k)
           - sqrt k * sqrt PI)
    with (sqrt k * ((E ((b - c) / sqrt k) - half_sqrt_pi)
                    - (E ((a - c) / sqrt k) + half_sqrt_pi)))
    by (unfold half_sqrt_pi; field).
  rewrite Rabs_mult, (Rabs_right (sqrt k)) by lra.
  apply Rlt_le_trans with (sqrt k * (eps / (2 * sqrt k) + eps / (2 * sqrt k))).
  - apply Rmult_lt_compat_l; [exact Hsk |].
    eapply Rle_lt_trans; [apply Rabs_triang |].
    rewrite Rabs_Ropp. lra.
  - right. field. lra.
Qed.

(** The integrals defined above are unique: they are functions of the
    integrand. *)
Lemma is_RInt_line_unique (f : R -> R) (I I' : R) :
  is_RInt_line f I -> is_RInt_line f I' -> I = I'.
Proof.
  intros H H'.
  destruct (Req_dec I I') as [Heq | Hne]; [exact Heq | exfalso].
  assert (0 < Rabs (I - I') / 2) as Heps.
  { apply Rdiv_lt_0_compat; [| lra]. apply Rabs_pos_lt. lra. }
  destruct (H _ Heps) as [A HA]. destruct (H' _ Heps) as [A' HA'].
  set (B := Rmax A A').
  assert (A <= B) as HB by apply Rmax_l.
  assert (A' <= B) as HB' by apply Rmax_r.
  destruct (HA (- B) B) as [J [HJ HJc]]; [lra | lra |].
  destruct (HA' (- B) B) as [J' [HJ' HJc']]; [lra | lra |].
  rewrite (is_RInt_unique _ _ _ _ _ HJ' HJ) in HJc'.
  assert (Rabs (I - I') <= Rabs (J - I) + Rabs (J - I')) as Htri.
  { replace (I - I') with (- (J - I) + (J - I')) by ring.
    eapply Rle_trans; [apply Rabs_triang |]. rewrite Rabs_Ropp. lra. }
  lra.
Qed.

Lemma is_RInt_space_unique (F : R -> R -> R -> R) (I I' : R) :
  is_RInt_space F I -> is_RInt_space F I' -> I = I'.
Proof.
  intros [Gxy [Gx [Hz [Hy Hx]]]] [Gxy' [Gx' [Hz' [Hy' Hx']]]].
  assert (Gxy = Gxy') as Exy.
  { apply functional_extensionality. intro x.
    apply functional_extensionality. intro y.
    exact (is_RInt_line_unique _ _ _ (Hz x y) (Hz' x y)). }
  subst Gxy'.
  assert (Gx = Gx') as Ex.
  { apply functional_extensionality. intro x.
    exact (is_RInt_line_unique _ _ _ (Hy x) (Hy' x)). }
  subst Gx'.
  exact (is_RInt_line_unique _ _ _ Hx Hx').
Qed.

(** ** Conservation of mass *)

Lemma Rpower_three_halves (a : R) : 0 < a -> Rpower a 1.5 = a * sqrt a.
Proof.
  intro Ha. replace 1.5 with (1 + / 2) by lra.
  rewrite Rpower_plus, Rpower_1, Rpower_sqrt by exact Ha. reflexivity.
Qed.

(** The closed form is a product of three one-dimensional Gaussians, of
    centres [x0 + u ts], [y0 + v ts], [z0 + w ts] and widths [4 D ts]. *)
Lemma gaussian_puff_factors (ts x y z M u v w Dx Dy Dz x0 y0 z0 : R) :
  gaussian_puff ts x y z M u v w Dx Dy Dz x0 y0 z0
  = puff_prefactor ts M Dx Dy Dz
    * exp (- ((x - (x0 + u * ts)) * (x - (x0 + u * ts))) / (4 * Dx * ts))
    * exp (- ((y - (y0 + v * ts)) * (y - (y0 + v * ts))) / (4 * Dy * ts))
    * exp (- ((z - (z0 + w * ts)) * (z - (z0 + w * ts))) / (4 * Dz * ts)).
Proof.
  unfold gaussian_puff, puff_exponent.
  rewrite !exp_plus, !Rmult_assoc.
  repeat f_equal; unfold Rdiv; ring.
Qed.

Lemma puff_normalisation (ts M Dx Dy Dz : R) :
  0 < ts -> 0 < Dx -> 0 < Dy -> 0 < Dz ->
  puff_prefactor ts M Dx Dy Dz
  * (sqrt (4 * Dz * ts) * sqrt PI)
  * (sqrt (4 * Dy * ts) * sqrt PI)
  * (sqrt (4 * Dx * ts) * sqrt PI) = M.
Proof.
  intros Hts Hx Hy Hz.
  pose proof PI_RGT_0 as Hpi.
  pose proof (four_pi_pos ts Hts) as Ha.
  pose proof (sqrt_lt_R0 _ Ha) as Hsa.
  pose proof (sqrt_lt_R0 _ Hx) as Hsx.
  pose proof (sqrt_lt_R0 _ Hy) as Hsy.
  pose proof (sqrt_lt_R0 _ Hz) as Hsz.
  assert (forall D, 0 < D ->
            sqrt (4 * D * ts) * sqrt PI = sqrt (4 * PI * ts) * sqrt D) as Hax.
  { intros D HD.
    rewrite <- !sqrt_mult by nra. f_equal. ring. }
  rewrite (Hax Dx Hx), (Hax Dy Hy), (Hax Dz Hz).
  unfold puff_prefactor.
  rewrite Rpower_three_halves by exact Ha.
  pose proof (sqrt_sqrt (4 * PI * ts) (Rlt_le _ _ Ha)) as Hsq.
  set (s := sqrt (4 * PI * ts)) in *.
  rewrite <- Hsq.
  rewrite (sqrt_mult (Dx * Dy) Dz) by nra.
  rewrite (sqrt_mult Dx Dy) by nra.
  field. lra.
Qed.

(** C7.  For positive dispersion coefficients and a fixed positive time
    (above or below the floor of the clamp), the output is finite at every
    point and its integral over three-dimensional space is the released
    mass. *)
Theorem mass_is_conserved (t1 M u v w Dx Dy Dz x0 y0 z0 : R) :
  0 < t1 -> 0 < Dx -> 0 < Dy -> 0 < Dz ->
  (forall x y z,
      is_finite
        (calculate_concentration_instantaneous
           (Fin t1) (Fin x) (Fin y) (Fin z) (Fin M) (Fin u) (Fin v) (Fin w)
           (Fin Dx) (Fin Dy) (Fin Dz) (Fin x0) (Fin y0) (Fin z0)))
  /\ is_RInt_space
       (fun x y z =>
          value_of
            (calculate_concentration_instantaneous
               (Fin t1) (Fin x) (Fin y) (Fin z) (Fin M)
               (Fin u) (Fin v) (Fin w)
               (Fin Dx) (Fin Dy) (Fin Dz) (Fin x0) (Fin y0) (Fin z0)))
       M.
Proof.
  intros Ht Hx Hy Hz.
  split.
  { intros x y z. rewrite body_on_reals by assumption.
    rewrite Rlt_dec_true by exact Ht. exact I. }
  set (ts := Rmax t1 t_floor).
  assert (0 < ts) as Hts by apply Rmax_floor_pos.
  pose proof (axis_denominator_pos _ _ Hx Hts) as Hkx.
  pose proof (axis_denominator_pos _ _ Hy Hts) as Hky.
  pose proof (axis_denominator_pos _ _ Hz Hts) as Hkz.
  set (P := puff_prefactor ts M Dx Dy Dz).
  set (gx := fun x => exp (- ((x - (x0 + u * ts)) * (x - (x0 + u * ts)))
                           / (4 * Dx * ts))).
  set (gy := fun y => exp (- ((y - (y0 + v * ts)) * (y - (y0 + v * ts)))
                           / (4 * Dy * ts))).
  set (gz := fun z => exp (- ((z - (z0 + w * ts)) * (z - (z0 + w * ts)))
                           / (4 * Dz * ts))).
  set (Iz := sqrt (4 * Dz * ts) * sqrt PI).
  set (Iy := sqrt (4 * Dy * ts) * sqrt PI).
  set (Ix := sqrt (4 * Dx * ts) * sqrt PI).
  exists (fun x y => (P * gx x * gy y) * Iz), (fun x => (P * Iz * gx x) * Iy).
  split; [| split].
  - intros x y.
    apply is_RInt_line_ext with (fun z => (P * gx x * gy y) * gz z).
    + intro z. rewrite body_on_reals by assumption.
      rewrite Rlt_dec_true by exact Ht. cbn [value_of].
      fold ts. rewrite gaussian_puff_factors. reflexivity.
    + apply is_RInt_line_scal. apply gaussian_line. exact Hkz.
  - intro x.
    apply is_RInt_line_ext with (fun y => (P * Iz * gx x) * gy y).
    + intro y. ring.
    + apply is_RInt_line_scal. apply gaussian_line. exact Hky.
  - replace M with ((P * Iz * Iy) * Ix).
    + apply is_RInt_line_ext with (fun x => (P * Iz * Iy) * gx x).
      * intro x. ring.
      * apply is_RInt_line_scal. apply gaussian_line. exact Hkx.
    + unfold P, Ix, Iy, Iz. apply puff_normalisation; assumption.
Qed.

Lemma mass_is_conserved_witness :
  (forall x y z,
      is_finite
        (calculate_concentration_instantaneous
           (Fin 60) (Fin x) (Fin y) (Fin z) (Fin 10) (Fin 0.5) (Fin 0) (Fin 0)
           (Fin 1) (Fin 0.1) (Fin 0.01) (Fin 5) (Fin 10) (Fin 2.5)))
  /\ is_RInt_space
       (fun x y z =>
          value_of
            (calculate_concentration_instantaneous
               (Fin 60) (Fin x) (Fin y) (Fin z) (Fin 10)
               (Fin 0.5) (Fin 0) (Fin 0)
               (Fin 1) (Fin 0.1) (Fin 0.01) (Fin 5) (Fin 10) (Fin 2.5)))
       10.
Proof.
  apply (mass_is_conserved 60 10 0.5 0 0 1 0.1 0.01 5 10 2.5); lra.
Defined.

(** ** Grids *)

Lemma np_linspace_length (start stop : R) (num : nat) :
  length (np_linspace start stop num) = num.
Proof.
  destruct num as [| [| m]]; try reflexivity.
  unfold np_linspace. rewrite length_app, length_map, length_seq.
  simpl. lia.
Qed.

(** The samples of [np.linspace], by index. *)
Lemma np_linspace_nth (start stop : R) (num i : nat) :
  (2 <= num)%nat -> (i < num)%nat ->
  nth_error (np_linspace start stop num) i
  = Some (start + INR i * ((stop - start) / INR (num - 1))).
Proof.
  intros Hn Hi.
  destruct num as [| [| m]]; try lia.
  unfold np_linspace.
  replace (S (S m) - 1)%nat with (S m) by lia.
  set (step := (stop - start) / INR (S m)).
  assert (INR (S m) <> 0) as Hne by (apply not_0_INR; lia).
  destruct (Nat.eq_dec i (S m)) as [-> | Hne'].
  - rewrite nth_error_app2 by (rewrite length_map, length_seq; lia).
    rewrite length_map, length_seq, Nat.sub_diag. simpl nth_error.
    f_equal. unfold step. field. exact Hne.
  - rewrite nth_error_app1 by (rewrite length_map, length_seq; lia).
    rewrite nth_error_map.
    rewrite nth_error_seq.
    assert ((i <? S m)%nat = true) as -> by (apply Nat.ltb_lt; lia).
    simpl. f_equal. ring.
Qed.

Lemma np_linspace_In (start stop : R) (num : nat) (x : R) :
  In x (np_linspace start stop num) ->
  exists i, (i < num)%nat
            /\ (num = 1%nat /\ x = start
                \/ (2 <= num)%nat
                   /\ x = start + INR i * ((stop - start) / INR (num - 1))).
Proof.
  intro Hin.
  destruct num as [| [| m]].
  - contradiction.
  - destruct Hin as [<- | []]. exists 0%nat. split; [lia | left; auto].
  - apply In_nth_error in Hin. destruct Hin as [i Hi].
    assert (i < S (S m))%nat as Hlt.
    { rewrite <- (np_linspace_length start stop (S (S m))).
      apply nth_error_Some. congruence. }
    exists i. split; [exact Hlt | right]. split; [lia |].
    rewrite np_linspace_nth in Hi by lia. congruence.
Qed.

(** Between ordered end points every sample lies between them. *)
Lemma np_linspace_bounds (start stop : R) (num : nat) (x : R) :
  start <= stop -> In x (np_linspace start stop num) -> start <= x <= stop.
Proof.
  intros Hle Hin.
  destruct (np_linspace_In _ _ _ _ Hin) as [i [Hi [[_ ->] | [Hn ->]]]];
    [lra |].
  assert (0 < INR (num - 1)) as Hpos by (apply lt_0_INR; lia).
  assert (0 <= INR i <= INR (num - 1)) as [Hi0 Hi1].
  { split; [apply pos_INR | apply le_INR; lia]. }
  assert (0 <= (stop - start) / INR (num - 1)) as Hstep.
  { apply Rmult_le_pos; [lra | left; apply Rinv_0_lt_compat; exact Hpos]. }
  assert (INR (num - 1) * ((stop - start) / INR (num - 1)) = stop - start)
    as Hfull by (field; lra).
  split; nra.
Qed.

Lemma np_meshgrid_ij_In {A B C : Type}
    (a : list A) (b : list B) (c : list C) (x : A) (y : B) (z : C) :
  In (x, y, z) (np_meshgrid_ij a b c) <-> In x a /\ In y b /\ In z c.
Proof.
  unfold np_meshgrid_ij. rewrite in_flat_map. split.
  - intros [x' [Hx Hin]]. rewrite in_flat_map in Hin.
    destruct Hin as [y' [Hy Hin]]. rewrite in_map_iff in Hin.
    destruct Hin as [z' [Heq Hz]]. inversion Heq; subst. auto.
  - intros [Hx [Hy Hz]]. exists x. split; [exact Hx |].
    rewrite in_flat_map. exists y. split; [exact Hy |].
    rewrite in_map_iff. exists z. auto.
Qed.

Lemma flat_map_constant_length {A B : Type} (f : A -> list B) (l : list A)
    (k : nat) :
  (forall x, length (f x) = k) -> length (flat_map f l) = (length l * k)%nat.
Proof.
  intro Hk. induction l as [| x l IH]; [reflexivity |].
  simpl. rewrite length_app, Hk, IH. reflexivity.
Qed.

Lemma np_meshgrid_ij_length {A B C : Type}
    (a : list A) (b : list B) (c : list C) :
  length (np_meshgrid_ij a b c) = (length a * (length b * length c))%nat.
Proof.
  unfold np_meshgrid_ij. apply flat_map_constant_length.
  intro x. apply flat_map_constant_length.
  intro y. apply length_map.
Qed.

(** ** The maximum of the field *)

Lemma fold_np_maximum_Fin (rs : list R) (m : R) :
  fold_left np_maximum (map Fin rs) (Fin m) = Fin (fold_left Rmax rs m).
Proof.
  revert m. induction rs as [| r rs IH]; intro m; [reflexivity |].
  simpl. apply IH.
Qed.

Lemma fold_Rmax_ge_init (rs : list R) (m : R) : m <= fold_left Rmax rs m.
Proof.
  revert m. induction rs as [| r rs IH]; intro m; simpl; [lra |].
  apply Rle_trans with (Rmax m r); [apply Rmax_l | apply IH].
Qed.

Lemma fold_Rmax_ge_each (rs : list R) (m r : R) :
  In r rs -> r <= fold_left Rmax rs m.
Proof.
  revert m. induction rs as [| a rs IH]; intros m Hin; [contradiction |].
  simpl. destruct Hin as [-> | Hin].
  - apply Rle_trans with (Rmax m r); [apply Rmax_r | apply fold_Rmax_ge_init].
  - apply IH. exact Hin.
Qed.

Lemma fold_Rmax_attained (rs : list R) (m : R) :
  In (fold_left Rmax rs m) (m :: rs).
Proof.
  revert m. induction rs as [| a rs IH]; intro m; simpl; [auto |].
  destruct (IH (Rmax m a)) as [Heq | Hin].
  - unfold Rmax in Heq at 1. destruct (Rle_dec m a); rewrite <- Heq; auto.
  - auto.
Qed.

(** The maximum of a non-empty array of numbers is one of them and bounds
    them all. *)
Lemma np_max_of_numbers (rs : list R) :
  rs <> [] ->
  exists m, np_max (map Fin rs) = Some (Fin m)
            /\ In m rs /\ forall r, In r rs -> r <= m.
Proof.
  destruct rs as [| a rs]; [congruence | intros _].
  exists (fold_left Rmax rs a). simpl. split; [| split].
  - f_equal. apply fold_np_maximum_Fin.
  - apply (fold_Rmax_attained rs a).
  - intros r [<- | Hin];
      [apply fold_Rmax_ge_init | apply fold_Rmax_ge_each; exact Hin].
Qed.

(** ** The page *)

Lemma dispersion_check_proceeds (Dx Dy Dz : R) :
  dispersion_check (Fin Dx) (Fin Dy) (Fin Dz) = Proceeds
  <-> Dx <> 0 /\ Dy <> 0 /\ Dz <> 0.
Proof.
  pose proof (dispersion_check_stops Dx Dy Dz) as [H1 H2].
  destruct (dispersion_check (Fin Dx) (Fin Dy) (Fin Dz)) eqn:E; split.
  - discriminate.
  - intros [Hx [Hy Hz]]. destruct (H1 eq_refl) as [H | [H | H]]; contradiction.
  - intros _. repeat split; intro H; assert (Proceeds = Stopped) as Habs
      by (apply H2; auto); discriminate.
  - reflexivity.
Qed.

Lemma n_pts_ge_2 (res : Page.Resolution) : (2 <= Page.n_pts res)%nat.
Proof. destruct res; simpl; lia. Qed.

Lemma query_points_length (s : Page.Sidebar) (n : nat)
    (req : Page.PlotRequest) :
  length (Page.query_points s n req) = (n * (n * n))%nat.
Proof.
  destruct req; unfold Page.query_points; cbv zeta;
    rewrite length_map, np_meshgrid_ij_length, !np_linspace_length;
    reflexivity.
Qed.

(** Every position handed to the evaluator holds four numbers: its spatial
    coordinates lie in the river, and the coordinate that the request holds
    fixed has the value of its slider. *)
Lemma query_point_cases (s : Page.Sidebar) (n : nat) (req : Page.PlotRequest)
    (p : QueryPoint) :
  Page.widget_ranges s -> Page.request_ranges s req ->
  In p (Page.query_points s n req) ->
  exists t x y z,
    p = mkQuery (Fin t) (Fin x) (Fin y) (Fin z)
    /\ 0 <= x <= Page.L s /\ 0 <= y <= Page.W s /\ 0 <= z <= Page.H s
    /\ Page.pinned req t x y z
    /\ (Page.is_space_time req -> 1 <= t <= Page.last_time req).
Proof.
  intros Hw Hr Hin.
  destruct Hw as [HL [HW [HH [_ [_ [_ [Hx0 [Hy0 Hz0]]]]]]]].
  destruct req as [t_max sl | t_max sl | t_max sl | sim_time];
    simpl in Hr; unfold Page.query_points in Hin; cbv zeta in Hin;
    apply in_map_iff in Hin; destruct Hin as [[[a b] c] [<- Hin]];
    apply np_meshgrid_ij_In in Hin; destruct Hin as [Ha [Hb Hc]].
  - exists a, b, sl, c.
    apply np_linspace_bounds in Ha; [| lra].
    apply np_linspace_bounds in Hb; [| lra].
    apply np_linspace_bounds in Hc; [| lra].
    simpl. repeat split; try lra.
  - exists a, b, c, sl.
    apply np_linspace_bounds in Ha; [| lra].
    apply np_linspace_bounds in Hb; [| lra].
    apply np_linspace_bounds in Hc; [| lra].
    simpl. repeat split; try lra.
  - exists a, sl, c, b.
    apply np_linspace_bounds in Ha; [| lra].
    apply np_linspace_bounds in Hb; [| lra].
    apply np_linspace_bounds in Hc; [| lra].
    simpl. repeat split; try lra.
  - exists sim_time, a, b, c.
    apply np_linspace_bounds in Ha; [| lra].
    apply np_linspace_bounds in Hb; [| lra].
    apply np_linspace_bounds in Hc; [| lra].
    simpl. repeat split; try lra.
Qed.

Lemma query_points_finite (s : Page.Sidebar) (n : nat)
    (req : Page.PlotRequest) :
  Forall Page.finite_point (Page.query_points s n req).
Proof.
  apply Forall_forall. intros p Hin.
  destruct req; unfold Page.query_points in Hin; cbv zeta in Hin;
    apply in_map_iff in Hin; destruct Hin as [[[a b] c] [<- _]];
    repeat split.
Qed.

Lemma evaluator_on_reals (t x y z M u v w Dx Dy Dz x0 y0 z0 : R) :
  0 < Dx -> 0 < Dy -> 0 < Dz ->
  calculate_concentration_instantaneous
    (Fin t) (Fin x) (Fin y) (Fin z) (Fin M) (Fin u) (Fin v) (Fin w)
    (Fin Dx) (Fin Dy) (Fin Dz) (Fin x0) (Fin y0) (Fin z0)
  = Fin (concentration t x y z M u v w Dx Dy Dz x0 y0 z0).
Proof.
  intros Hx Hy Hz. rewrite body_on_reals by assumption.
  unfold concentration. destruct (Rlt_dec 0 t); reflexivity.
Qed.

(** With positive coefficients the field computed on finite positions is an
    array of numbers. *)
Lemma evaluate_numbers (s : Page.Sidebar) (pts : list QueryPoint) :
  0 < Page.Dx s -> 0 < Page.Dy s -> 0 < Page.Dz s ->
  Forall Page.finite_point pts ->
  Page.evaluate s pts = map Fin (map (Page.concentration_at s) pts).
Proof.
  intros Hx Hy Hz Hf.
  unfold Page.evaluate, calculate_concentration_field.
  rewrite map_map. apply map_ext_in. intros p Hin.
  rewrite Forall_forall in Hf.
  destruct (Hf p Hin) as [Ht [Hpx [Hpy Hpz]]].
  destruct p as [pt px py pz]. simpl in *.
  destruct pt, px, py, pz; try contradiction.
  unfold Page.concentration_at. simpl.
  apply evaluator_on_reals; assumption.
Qed.

Lemma concentration_nonneg (t x y z M u v w Dx Dy Dz x0 y0 z0 : R) :
  0 <= M -> 0 < Dx -> 0 < Dy -> 0 < Dz ->
  0 <= concentration t x y z M u v w Dx Dy Dz x0 y0 z0.
Proof.
  intros HM Hx Hy Hz. unfold concentration.
  destruct (Rlt_dec 0 t); [apply gaussian_puff_nonneg; assumption | lra].
Qed.

Lemma query_points_nonempty (s : Page.Sidebar) (res : Page.Resolution)
    (req : Page.PlotRequest) :
  Page.query_points s (Page.n_pts res) req <> [].
Proof.
  intro Habs. apply (f_equal (@length _)) in Habs.
  rewrite query_points_length in Habs. simpl in Habs.
  pose proof (n_pts_ge_2 res). nia.
Qed.

Lemma np_max_none (l : list f64) : np_max l = None <-> l = [].
Proof. destruct l; simpl; split; intro; congruence. Qed.

(** When the validation lets the script proceed, it reaches the plot. *)
Lemma run_proceeds (s : Page.Sidebar) (res : Page.Resolution)
    (req : Page.PlotRequest) :
  dispersion_check (Fin (Page.Dx s)) (Fin (Page.Dy s)) (Fin (Page.Dz s))
  = Proceeds ->
  exists c,
    np_max (Page.evaluate s (Page.query_points s (Page.n_pts res) req))
    = Some c
    /\ Page.run s res req
       = Page.Plotted
           (Page.mkVolume
              (map (Page.plot_coords req)
                   (Page.query_points s (Page.n_pts res) req))
              (Page.evaluate s (Page.query_points s (Page.n_pts res) req))
              (fmul c (Fin 0.05)) c)
           c.
Proof.
  intro Hc. unfold Page.run. rewrite Hc. cbv zeta.
  destruct (np_max _) as [c |] eqn:E.
  - exists c. split; reflexivity.
  - exfalso. apply np_max_none in E.
    unfold Page.evaluate, calculate_concentration_field in E.
    apply map_eq_nil in E.
    exact (query_points_nonempty s res req E).
Qed.

Lemma check_gives_positive (s : Page.Sidebar) :
  Page.widget_ranges s ->
  dispersion_check (Fin (Page.Dx s)) (Fin (Page.Dy s)) (Fin (Page.Dz s))
  = Proceeds ->
  0 < Page.Dx s /\ 0 < Page.Dy s /\ 0 < Page.Dz s.
Proof.
  intros Hw Hc.
  destruct Hw as [_ [_ [_ [Hx [Hy [Hz _]]]]]].
  apply dispersion_check_proceeds in Hc. destruct Hc as [Hnx [Hny Hnz]].
  lra.
Qed.

(** X1.  The widgets give coefficients that are not negative and the
    validation rejects zero: whenever the script proceeds, the three
    dispersion coefficients are strictly positive, as the evaluator
    assumes. *)
Theorem validated_coefficients_positive (s : Page.Sidebar) :
  Page.widget_ranges s ->
  dispersion_check (Fin (Page.Dx s)) (Fin (Page.Dy s)) (Fin (Page.Dz s))
  = Proceeds ->
  0 < Page.Dx s /\ 0 < Page.Dy s /\ 0 < Page.Dz s.
Proof.
  intros Hw Hc.
  destruct Hw as [_ [_ [_ [Hx [Hy [Hz _]]]]]].
  destruct (dispersion_check_stops (Page.Dx s) (Page.Dy s) (Page.Dz s))
    as [_ Hstop].
  repeat split.
  - destruct Hx as [Hx | Hx]; [exact Hx | exfalso].
    assert (Proceeds = Stopped) as Habs
        by (rewrite <- Hc; apply Hstop; auto).
    discriminate.
  - destruct Hy as [Hy | Hy]; [exact Hy | exfalso].
    assert (Proceeds = Stopped) as Habs
        by (rewrite <- Hc; apply Hstop; auto).
    discriminate.
  - destruct Hz as [Hz | Hz]; [exact Hz | exfalso].
    assert (Proceeds = Stopped) as Habs
        by (rewrite <- Hc; apply Hstop; auto).
    discriminate.
Qed.

Lemma defaults_in_ranges : Page.widget_ranges Page.defaults.
Proof. unfold Page.widget_ranges, Page.defaults. simpl. lra. Qed.

Lemma defaults_proceed :
  dispersion_check (Fin (Page.Dx Page.defaults)) (Fin (Page.Dy Page.defaults))
    (Fin (Page.Dz Page.defaults)) = Proceeds.
Proof. apply dispersion_check_proceeds. simpl. lra. Qed.

Lemma validated_coefficients_positive_witness :
  0 < Page.Dx Page.defaults /\ 0 < Page.Dy Page.defaults
  /\ 0 < Page.Dz Page.defaults.
Proof.
  apply (validated_coefficients_positive Page.defaults);
    [exact defaults_in_ranges | exact defaults_proceed].
Defined.

(** X2.  A run of the script halts before any evaluation exactly when one
    of the three coefficients is zero, and otherwise reaches the plot:
    [np.max] never meets an empty array, whatever the resolution and the
    request. *)
Theorem run_halts_exactly_on_zero (s : Page.Sidebar)
    (res : Page.Resolution) (req : Page.PlotRequest) :
  (Page.run s res req = Page.Halted
   <-> Page.Dx s = 0 \/ Page.Dy s = 0 \/ Page.Dz s = 0)
  /\ Page.run s res req <> Page.MaxOfEmpty
  /\ (Page.run s res req <> Page.Halted ->
      exists fig c, Page.run s res req = Page.Plotted fig c).
Proof.
  destruct (dispersion_check (Fin (Page.Dx s)) (Fin (Page.Dy s))
              (Fin (Page.Dz s))) eqn:E.
  - assert (Page.run s res req = Page.Halted) as Hrun
        by (unfold Page.run; rewrite E; reflexivity).
    rewrite Hrun. split; [| split].
    + split; [intros _; apply dispersion_check_stops; exact E | reflexivity].
    + discriminate.
    + intro Habs. contradiction.
  - destruct (run_proceeds s res req E) as [c [_ Hrun]].
    rewrite Hrun. split; [| split].
    + split; [discriminate |].
      intro HD. apply dispersion_check_stops in HD. congruence.
    + discriminate.
    + intros _. eexists. eexists. reflexivity.
Qed.





(** X5.  The time slider of the snapshot starts at zero: at that time (or
    any time that is not positive) the whole field is exactly zero, and so
    are the printed maximum and both ends of the iso-surface range. *)
Theorem snapshot_before_release (s : Page.Sidebar) (res : Page.Resolution)
    (sim_time : R) :
  dispersion_check (Fin (Page.Dx s)) (Fin (Page.Dy s)) (Fin (Page.Dz s))
  = Proceeds ->
  sim_time <= 0 ->
  exists fig,
    Page.run s res (Page.SpatialSnapshot sim_time)
    = Page.Plotted fig (Fin 0)
    /\ (forall c, In c (Page.value fig) -> c = Fin 0)
    /\ Page.isomin fig = Fin 0
    /\ Page.isomax fig = Fin 0.
Proof.
  intros Hc Ht.
  destruct (run_proceeds s res (Page.SpatialSnapshot sim_time) Hc)
    as [c [Hmax Hrun]].
  set (pts := Page.query_points s (Page.n_pts res)
                (Page.SpatialSnapshot sim_time)) in *.
  assert (Page.evaluate s pts = map Fin (map (fun _ => 0) pts)) as Hev.
  { unfold Page.evaluate, calculate_concentration_field.
    rewrite map_map. apply map_ext_in. intros p Hin.
    unfold pts, Page.query_points in Hin. cbv zeta in Hin.
    apply in_map_iff in Hin. destruct Hin as [[[a b] d] [<- _]]. simpl.
    apply mask_nonpositive_time. apply fgtb_real_false. exact Ht. }
  assert (map (fun _ : QueryPoint => 0) pts <> []) as Hne.
  { intro Habs. apply map_eq_nil in Habs.
    exact (query_points_nonempty s res _ Habs). }
  destruct (np_max_of_numbers _ Hne) as [m [Hm [Hin _]]].
  rewrite <- Hev in Hm. rewrite Hm in Hmax. inversion Hmax; subst c.
  apply in_map_iff in Hin. destruct Hin as [p [<- _]].
  eexists. split; [exact Hrun |]. simpl.
  split; [| split; [f_equal; ring | reflexivity]].
  intros c Hc'. rewrite Hev in Hc'. apply in_map_iff in Hc'.
  destruct Hc' as [r [<- Hr]]. apply in_map_iff in Hr.
  destruct Hr as [q [<- _]]. reflexivity.
Qed.

Lemma snapshot_before_release_witness :
  exists fig,
    Page.run Page.defaults Page.Medium (Page.SpatialSnapshot 0)
    = Page.Plotted fig (Fin 0)
    /\ (forall c, In c (Page.value fig) -> c = Fin 0)
    /\ Page.isomin fig = Fin 0
    /\ Page.isomax fig = Fin 0.
Proof.
  apply (snapshot_before_release Page.defaults Page.Medium 0);
    [exact defaults_proceed | lra].
Defined.


(** X7.  Every position handed to the evaluator holds four numbers; its
    spatial coordinates lie in the river, [[0, L] x [0, W] x [0, H]]; and the
    coordinate that the request holds fixed (the slice of a space-time plot,
    the time of the snapshot) has the value of its slider at every
    position. *)
Theorem grid_stays_in_the_river (s : Page.Sidebar) (res : Page.Resolution)
    (req : Page.PlotRequest) (p : QueryPoint) :
  Page.widget_ranges s -> Page.request_ranges s req ->
  In p (Page.query_points s (Page.n_pts res) req) ->
  exists t x y z,
    p = mkQuery (Fin t) (Fin x) (Fin y) (Fin z)
    /\ 0 <= x <= Page.L s /\ 0 <= y <= Page.W s /\ 0 <= z <= Page.H s
    /\ Page.pinned req t x y z.
Proof.
  intros Hw Hr Hin.
  destruct (query_point_cases s _ req p Hw Hr Hin)
    as [t [x [y [z [Hp [Hx [Hy [Hz [Hpin _]]]]]]]]].
  exists t, x, y, z. auto.
Qed.

Lemma np_linspace_ends (start stop : R) (num : nat) :
  (2 <= num)%nat ->
  In start (np_linspace start stop num) /\ In stop (np_linspace start stop num).
Proof.
  intro Hn. split.
  - apply nth_error_In with 0%nat.
    rewrite np_linspace_nth by lia. f_equal. simpl. ring.
  - destruct num as [| [| m]]; try lia.
    unfold np_linspace. apply in_or_app. right. left. reflexivity.
Qed.


Lemma grid_stays_in_the_river_witness :
  exists t x y z,
    mkQuery (Fin 60) (Fin 100) (Fin 20) (Fin 5)
    = mkQuery (Fin t) (Fin x) (Fin y) (Fin z)
    /\ 0 <= x <= Page.L Page.defaults /\ 0 <= y <= Page.W Page.defaults
    /\ 0 <= z <= Page.H Page.defaults
    /\ Page.pinned (Page.SpatialSnapshot 60) t x y z.
Proof.
  apply (grid_stays_in_the_river Page.defaults Page.High
           (Page.SpatialSnapshot 60)
           (mkQuery (Fin 60) (Fin 100) (Fin 20) (Fin 5))).
  - exact defaults_in_ranges.
  - simpl. lra.
  - unfold Page.query_points. cbv zeta. apply in_map_iff.
    exists (100, 20, 5). split; [reflexivity |].
    apply np_meshgrid_ij_In.
    repeat split; apply np_linspace_ends; simpl; lia.
Defined.

(** ** The evaluator outside its precondition, and its shape inside *)

(** The body on finite operands when the product of the coefficients is
    positive and none is zero: still the closed form. *)
Lemma C_raw_on_reals_signed (ts x y z M u v w Dx Dy Dz x0 y0 z0 : R) :
  0 < ts -> 0 < Dx * Dy * Dz ->
  C_raw (Fin ts) (Fin x) (Fin y) (Fin z) (Fin M) (Fin u) (Fin v) (Fin w)
        (Fin Dx) (Fin Dy) (Fin Dz) (Fin x0) (Fin y0) (Fin z0)
  = Fin (gaussian_puff ts x y z M u v w Dx Dy Dz x0 y0 z0).
Proof.
  intros Hts HP.
  assert (Dx <> 0 /\ Dy <> 0 /\ Dz <> 0) as [Hx [Hy Hz]].
  { repeat split; intro H; rewrite H in HP; lra. }
  pose proof (four_pi_pos _ Hts) as H4.
  assert (0 < Rpower (4 * PI * ts) 1.5 * sqrt (Dx * Dy * Dz)) as Hden.
  { apply Rmult_lt_0_compat; [apply Rpower_pos | apply sqrt_lt_R0; exact HP]. }
  assert (forall D, D <> 0 -> 4 * D * ts <> 0) as Hax.
  { intros D HD Habs. apply Rmult_integral in Habs.
    destruct Habs as [Habs | Habs]; [| lra].
    apply Rmult_integral in Habs. destruct Habs; lra. }
  unfold C_raw, np_pi. cbn.
  rewrite (Rlt_dec_true 0 (4 * PI * ts)) by exact H4.
  rewrite (Rlt_dec_false (Dx * Dy * Dz) 0) by lra.
  cbn.
  rewrite (Req_dec_T_false (Rpower (4 * PI * ts) 1.5 * sqrt (Dx * Dy * Dz)) 0)
    by lra.
  rewrite (Req_dec_T_false (4 * Dx * ts) 0) by (apply Hax; exact Hx).
  rewrite (Req_dec_T_false (4 * Dy * ts) 0) by (apply Hax; exact Hy).
  rewrite (Req_dec_T_false (4 * Dz * ts) 0) by (apply Hax; exact Hz).
  cbn. reflexivity.
Qed.

Lemma negative_product_raw (ts x y z M u v w Dx Dy Dz x0 y0 z0 : R) :
  0 < ts -> Dx * Dy * Dz < 0 ->
  C_raw (Fin ts) (Fin x) (Fin y) (Fin z) (Fin M) (Fin u) (Fin v) (Fin w)
        (Fin Dx) (Fin Dy) (Fin Dz) (Fin x0) (Fin y0) (Fin z0) = NaN.
Proof.
  intros Hts HP. unfold C_raw, np_pi.
  assert (fdiv (Fin M)
            (fmul (fpow (fmul (fmul (Fin 4) (Fin PI)) (Fin ts)) 1.5)
                  (np_sqrt (fmul (fmul (Fin Dx) (Fin Dy)) (Fin Dz))))
          = NaN) as ->.
  { cbn. rewrite (Rlt_dec_true 0 (4 * PI * ts)) by (apply four_pi_pos; exact Hts).
    rewrite (Rlt_dec_true (Dx * Dy * Dz) 0) by exact HP. reflexivity. }
  reflexivity.
Qed.

Lemma positive_time_raw (t : R) (x y z M u v w Dx Dy Dz x0 y0 z0 : f64) :
  0 < t ->
  calculate_concentration_instantaneous
    (Fin t) x y z M u v w Dx Dy Dz x0 y0 z0
  = C_raw (Fin (Rmax t t_floor)) x y z M u v w Dx Dy Dz x0 y0 z0.
Proof.
  intro Ht. rewrite compute_then_mask.
  assert (fgtb (Fin t) (Fin 0) = true) as -> by (apply fgtb_real; exact Ht).
  reflexivity.
Qed.




Lemma fleb_real (a b : R) : fleb (Fin a) (Fin b) = true <-> a <= b.
Proof.
  simpl. destruct (Rle_dec a b); split; intro H;
    try reflexivity; try assumption; try discriminate; contradiction.
Qed.

(** The closed form in the offsets from the centre of the puff. *)
Lemma gaussian_puff_offsets (ts x y z M u v w Dx Dy Dz x0 y0 z0 : R) :
  gaussian_puff ts (x0 + u * ts + x) (y0 + v * ts + y) (z0 + w * ts + z)
    M u v w Dx Dy Dz x0 y0 z0
  = puff_prefactor ts M Dx Dy Dz
    * exp (- x ^ 2 / (4 * Dx * ts) + - y ^ 2 / (4 * Dy * ts)
           + - z ^ 2 / (4 * Dz * ts)).
Proof.
  unfold gaussian_puff, puff_exponent.
  replace (x0 + u * ts + x - x0 - u * ts) with x by ring.
  replace (y0 + v * ts + y - y0 - v * ts) with y by ring.
  replace (z0 + w * ts + z - z0 - w * ts) with z by ring.
  reflexivity.
Qed.

Lemma axis_term_monotone (d1 d2 D ts : R) :
  0 < D -> 0 < ts -> Rabs d1 <= Rabs d2 ->
  - d2 ^ 2 / (4 * D * ts) <= - d1 ^ 2 / (4 * D * ts).
Proof.
  intros HD Hts Habs.
  pose proof (axis_denominator_pos _ _ HD Hts) as Hden.
  apply Rsqr_le_abs_1 in Habs. unfold Rsqr in Habs.
  unfold Rdiv. apply Rmult_le_compat_r.
  - left. apply Rinv_0_lt_compat. exact Hden.
  - simpl. lra.
Qed.

Lemma exp_monotone (a b : R) : a <= b -> exp a <= exp b.
Proof.
  intros [Hlt | ->]; [left; apply exp_increasing; exact Hlt | right; reflexivity].
Qed.

Lemma offsets_monotone (ts a1 b1 c1 a2 b2 c2 M Dx Dy Dz : R) :
  0 < ts -> 0 <= M -> 0 < Dx -> 0 < Dy -> 0 < Dz ->
  Rabs a1 <= Rabs a2 -> Rabs b1 <= Rabs b2 -> Rabs c1 <= Rabs c2 ->
  puff_prefactor ts M Dx Dy Dz
  * exp (- a2 ^ 2 / (4 * Dx * ts) + - b2 ^ 2 / (4 * Dy * ts)
         + - c2 ^ 2 / (4 * Dz * ts))
  <= puff_prefactor ts M Dx Dy Dz
     * exp (- a1 ^ 2 / (4 * Dx * ts) + - b1 ^ 2 / (4 * Dy * ts)
            + - c1 ^ 2 / (4 * Dz * ts)).
Proof.
  intros Hts HM Hx Hy Hz Ha Hb Hc.
  apply Rmult_le_compat_l; [apply puff_prefactor_nonneg; assumption |].
  apply exp_monotone.
  pose proof (axis_term_monotone a1 a2 Dx _ Hx Hts Ha).
  pose proof (axis_term_monotone b1 b2 Dy _ Hy Hts Hb).
  pose proof (axis_term_monotone c1 c2 Dz _ Hz Hts Hc).
  lra.
Qed.





Lemma prefactor_decreases (t1 t2 M Dx Dy Dz : R) :
  0 < t1 <= t2 -> 0 <= M -> 0 < Dx -> 0 < Dy -> 0 < Dz ->
  puff_prefactor t2 M Dx Dy Dz <= puff_prefactor t1 M Dx Dy Dz.
Proof.
  intros [Ht1 Hle] HM Hx Hy Hz. unfold puff_prefactor, Rdiv.
  apply Rmult_le_compat_l; [exact HM |].
  pose proof (sqrt_lt_R0 _ (D_product_pos _ _ _ Hx Hy Hz)) as Hs.
  apply Rinv_le_contravar.
  - apply puff_denominator_pos; assumption.
  - apply Rmult_le_compat_r; [lra |].
    apply Rle_Rpower_l; [lra |].
    pose proof PI_RGT_0. split; nra.
Qed.







Lemma query_point_time (s : Page.Sidebar) (n : nat) (req : Page.PlotRequest)
    (p : QueryPoint) :
  Page.widget_ranges s -> Page.request_ranges s req ->
  In p (Page.query_points s n req) ->
  exists t x y z,
    p = mkQuery (Fin t) (Fin x) (Fin y) (Fin z) /\ Page.first_time req <= t.
Proof.
  intros Hw Hr Hin.
  destruct (query_point_cases s n req p Hw Hr Hin)
    as [t [x [y [z [Hp [_ [_ [_ [Hpin Ht]]]]]]]]].
  exists t, x, y, z. split; [exact Hp |].
  destruct req; simpl in *; try (apply Ht; exact I).
  rewrite Hpin. apply Rle_refl.
Qed.





(** X17.  The least values that the inputs of the river geometry accept
    (length 10, breadth 1, depth 0.5) keep every slider well formed: the
    first value of each slider of the release point, and of each slider of
    a slice once the release point is in its range, lies within the range
    of the slider. *)
Theorem sliders_well_formed (s : Page.Sidebar) (sl : Page.Slider) :
  Page.widget_ranges s ->
  In sl (Page.release_sliders s ++ Page.slice_sliders s) ->
  Page.well_formed sl.
Proof.
  intros Hw Hin.
  destruct Hw as [HL [HW [HH [_ [_ [_ [Hx0 [Hy0 Hz0]]]]]]]].
  unfold Page.release_sliders, Page.slice_sliders in Hin. simpl in Hin.
  unfold Page.well_formed.
  destruct Hin as [<- | [<- | [<- | [<- | [<- | [<- | []]]]]]]; simpl; lra.
Qed.

Lemma sliders_well_formed_witness :
  Page.well_formed (Page.mkSlider 0 (Page.L Page.defaults) 5).
Proof.
  apply (sliders_well_formed Page.defaults);
    [exact defaults_in_ranges | left; reflexivity].
Defined.
